(** * uber_ga.noise: deterministic mutation noise and scoped perturbation

  A shallow embedding of [uber_ga/noise.py] and the properties its
  specification states about it.

  - Python exceptions are values of an error monad ([result]).
  - A [float32] is an IEEE 754 binary32 number, modelled by the
    Standard Library's [spec_float] at precision 24 and exponent bound
    128; numpy's element-wise [+] and [*] are [SFadd] and [SFmul].
  - [numpy.random.RandomState] is a deterministic generator, fully
    determined by its seed; the streams it produces are a parameter of
    the development (class [RandomState]).
  - The noise cache is a Python [dict]; it is an association list kept
    in insertion order.  Which key [dict.keys()] lists first under
    Python 2 is the hash table's business, and a parameter.
  - The TensorFlow session is the list of the current values of the
    variables the [NoiseAdder] was built over.
  - numpy is numpy 1.x: [np.sum] hands a generator to Python's [sum],
    [np.prod] gives a generator back as it is. *)

From Stdlib Require Import List ZArith Lia Bool PeanoNat.
From Stdlib Require Import Floats.SpecFloat.
Import ListNotations.

Set Implicit Arguments.

(* ------------------------------------------------------------------ *)
(** ** Python outcomes *)

Module Py.

Inductive exn : Type :=
| ValueError
| TypeError
| IndexError
| InvalidArgumentError.

Inductive result (A : Type) : Type :=
| Ok (a : A)
| Raise (e : exn).

Arguments Ok {A} a.
Arguments Raise {A} e.

Definition bind {A B} (c : result A) (k : A -> result B) : result B :=
  match c with
  | Ok a => k a
  | Raise e => Raise e
  end.

Definition is_ok {A} (c : result A) : bool :=
  match c with Ok _ => true | Raise _ => false end.

(** Python values as far as line 80 of the module needs them: an
    [int], or a generator object. *)
Inductive object : Type :=
| Int (n : Z)
| Generator (items : list nat).

(** [a + b]: defined on two [int]s, [TypeError] with a generator. *)
Definition add (a b : object) : result object :=
  match a, b with
  | Int x, Int y => Ok (Int (x + y))
  | _, _ => Raise TypeError
  end.

(** [int(a)] *)
Definition int (a : object) : result nat :=
  match a with
  | Int x => Ok (Z.to_nat x)
  | Generator _ => Raise TypeError
  end.

End Py.
Import Py.

Declare Scope py_scope.
Delimit Scope py_scope with py.
Notation "x <- c ;; k" := (bind c (fun x => k))
  (at level 100, c at next level, right associativity) : py_scope.
Open Scope py_scope.

(** Python's [sum(items)]: the accumulator starts at the [int] 0 and the
    items are added to it from left to right. *)
Fixpoint py_sum_from (acc : Py.object) (items : list Py.object)
  : result Py.object :=
  match items with
  | [] => Ok acc
  | x :: rest => acc' <- Py.add acc x ;; py_sum_from acc' rest
  end.

Definition py_sum (items : list Py.object) : result Py.object :=
  py_sum_from (Py.Int 0) items.

(* ------------------------------------------------------------------ *)
(** ** float32 *)

Module F32.

Definition float32 : Type := spec_float.

Definition prec : Z := 24.
Definition emax : Z := 128.

Definition zero : float32 := S754_zero false.
Definition add : float32 -> float32 -> float32 := SFadd prec emax.
Definition mul : float32 -> float32 -> float32 := SFmul prec emax.

Definition eq_dec (x y : float32) : {x = y} + {x <> y}.
Proof.
  decide equality; try apply Bool.bool_dec;
    try apply Z.eq_dec; apply Pos.eq_dec.
Defined.

Definition is_zero (x : float32) : bool :=
  match x with S754_zero _ => true | _ => false end.

(** Two floats denote the same number: they are the same datum, or
    they are the two zeros.  (NaN has no payload in [spec_float].) *)
Definition same_number (x y : float32) : Prop :=
  x = y \/ (is_zero x = true /\ is_zero y = true).

(** A few literals. *)
Definition one : float32 := S754_finite false 8388608 (-23).
Definition two : float32 := S754_finite false 8388608 (-22).
Definition three : float32 := S754_finite false 12582912 (-22).
Definition minus_one : float32 := S754_finite true 8388608 (-23).
Definition minus_zero : float32 := S754_zero true.

End F32.
Import F32.

(* ------------------------------------------------------------------ *)
(** ** numpy: one-dimensional float32 arrays *)

Module Np.

Definition vector : Type := list float32.

(** [np.zeros(size, dtype='float32')] *)
Definition zeros (size : nat) : vector := repeat F32.zero size.

(** [a * scale], an array times a scalar *)
Definition scale (a : vector) (c : float32) : vector :=
  map (fun x => F32.mul x c) a.

Definition zip_add (a b : vector) : vector :=
  map (fun p => F32.add (fst p) (snd p)) (combine a b).

(** [a + b] on arrays of shapes [(len a,)] and [(len b,)]: equal
    lengths add element-wise, a length of 1 is broadcast, anything else
    raises [ValueError]. *)
Definition add (a b : vector) : result vector :=
  if length a =? length b then Ok (zip_add a b)
  else if length a =? 1 then Ok (map (F32.add (hd F32.zero a)) b)
  else if length b =? 1 then Ok (map (fun x => F32.add x (hd F32.zero b)) a)
  else Raise ValueError.

(** The [int] 0 that Python's [sum] starts from.  Added to an array it
    is broadcast as a scalar; a one-element array broadcasts against a
    one-dimensional array in exactly the same way, and stands for it. *)
Definition int_zero : vector := [F32.zero].

(** [a[indices]] with an integer index array *)
Fixpoint take (a : vector) (indices : list nat) : result vector :=
  match indices with
  | [] => Ok []
  | i :: rest =>
      match nth_error a i with
      | None => Raise IndexError
      | Some x => xs <- take a rest ;; Ok (x :: xs)
      end
  end.

(** [int(np.prod(shape))] for a shape, which is a tuple *)
Definition prod (dims : list nat) : nat := fold_right Nat.mul 1 dims.

(** [np.prod(g)] for a generator [g].  numpy has no case for it: the
    generator becomes a zero-dimensional array of one object, and the
    product over no axis is that object, the generator itself. *)
Definition prod_of_generator (g : list nat) : Py.object := Py.Generator g.

(** [np.sum(g)] for a generator [g] of objects: numpy hands it to
    Python's [sum]. *)
Definition sum_of_generator (g : list Py.object) : result Py.object :=
  py_sum g.

End Np.

(* ------------------------------------------------------------------ *)
(** ** numpy.random.RandomState *)

(** What the generator produces from a seed.  [normal seed n] is
  [RandomState(seed).normal(size=n).astype('float32')] and
  [randint seed high n] is [RandomState(seed).randint(0, high=high, size=n)];
  both are functions of their arguments because the program seeds a
  fresh generator for every draw. *)
Class RandomState : Type := {
  normal : Z -> nat -> Np.vector;
  randint : Z -> nat -> nat -> list nat;
  normal_length : forall seed n, length (normal seed n) = n;
  randint_length : forall seed high n, length (randint seed high n) = n;
  randint_range : forall seed high n,
      0 < high -> Forall (fun i => i < high) (randint seed high n)
}.

Module Rs.
Section WithGenerator.
Context {RS : RandomState}.

(** [RandomState(seed=seed)]: the seed must lie in [0, 2^32). The
    generator's state is a function of the seed, which stands for it. *)
Definition seed_ok (seed : Z) : bool :=
  ((0 <=? seed) && (seed <? 2 ^ 32))%Z.

Definition create (seed : Z) : result Z :=
  if seed_ok seed then Ok seed else Raise ValueError.

(** [state.normal(size=size).astype('float32')]: a negative size is
    refused. *)
Definition draw_normal (state : Z) (size : Z) : result Np.vector :=
  if (size <? 0)%Z then Raise ValueError
  else Ok (normal state (Z.to_nat size)).

(** [state.randint(0, high=high, size=size)]: an empty range is
    refused as soon as one value is asked of it; with none asked, the
    result is the empty array. *)
Definition draw_randint (state : Z) (high size : nat) : result (list nat) :=
  if high =? 0 then (if size =? 0 then Ok [] else Raise ValueError)
  else Ok (randint state high size).

End WithGenerator.
End Rs.

(* ------------------------------------------------------------------ *)
(** ** Python dict, keyed by mutation-chain prefixes *)

(** A mutation is a [(seed, scale)] pair; the scale is the float32 the
    block is multiplied by.  A chain is a sequence of mutations, and a
    cache key is a chain.  Keys are compared here as data.  Python
    compares the tuples element by element with [==]: that is the same
    comparison for the chains whose scales are exact float32 values
    other than NaN and the negative zero, and the chains of this file
    are meant to be those (for Python, [-0.0] and [0.0] are one key, and
    a NaN is a key equal to no other). *)
Abbreviation mutation := (Z * float32)%type (only parsing).
Abbreviation chain := (list (Z * float32)) (only parsing).

Definition mutation_eq_dec (a b : mutation) : {a = b} + {a <> b}.
Proof. decide equality; [apply F32.eq_dec | apply Z.eq_dec]. Defined.

Definition chain_eq_dec (a b : chain) : {a = b} + {a <> b} :=
  list_eq_dec mutation_eq_dec a b.

(** The interpreter the program runs under.  The two differ, for this
    file, in one place only: [dict.keys()] is a view that cannot be
    indexed under Python 3, and a list under Python 2, in the order of
    the dictionary's hash table; [slot] says which of the keys, given in
    insertion order, that table lists first. *)
Inductive python : Type :=
| Python2 (slot : list chain -> nat)
| Python3.

Module Dict.

Definition dict : Type := list (chain * Np.vector).

(** [d[key]], [key in d] *)
Fixpoint get (key : chain) (d : dict) : option Np.vector :=
  match d with
  | [] => None
  | (k, v) :: rest => if chain_eq_dec key k then Some v else get key rest
  end.

(** [d[key] = value]: an existing key keeps its place, a new key goes
    last. *)
Fixpoint set (key : chain) (value : Np.vector) (d : dict) : dict :=
  match d with
  | [] => [(key, value)]
  | (k, v) :: rest =>
      if chain_eq_dec key k then (k, value) :: rest
      else (k, v) :: set key value rest
  end.

(** [del d[key]] for a key that is present *)
Fixpoint del (key : chain) (d : dict) : dict :=
  match d with
  | [] => []
  | (k, v) :: rest =>
      if chain_eq_dec key k then rest else (k, v) :: del key rest
  end.

Definition keys (d : dict) : list chain := map fst d.
Definition values (d : dict) : list Np.vector := map snd d.

(** [d.keys()[0]] *)
Definition first_key (py : python) (d : dict) : result chain :=
  match py with
  | Python3 => Raise TypeError
  | Python2 slot =>
      match keys d with
      | [] => Raise IndexError
      | k :: ks =>
          Ok (nth (slot (k :: ks) mod length (k :: ks)) (k :: ks) k)
      end
  end.

End Dict.


(* ------------------------------------------------------------------ *)
(** ** class NoiseSource *)

Module NoiseSource.

(** The object's fields. *)
Record t : Type := {
  noise : Np.vector;
  _cache : Dict.dict;
  _max_cache : Z
}.

Definition with_cache (self : t) (d : Dict.dict) : t :=
  {| noise := noise self; _cache := d; _max_cache := _max_cache self |}.

Section WithGenerator.
Context {RS : RandomState}.

(** [NoiseSource(seed, size, max_cache)] *)
Definition __init__ (seed size max_cache : Z) : result t :=
  state <- Rs.create seed ;;
  table <- Rs.draw_normal state size ;;
  Ok {| noise := table; _cache := []; _max_cache := max_cache |}.

(** [self.block(size, seed)] *)
Definition block (self : t) (size : nat) (seed : Z) : result Np.vector :=
  state <- Rs.create seed ;;
  indices <- Rs.draw_randint state (length (noise self)) size ;;
  Np.take (noise self) indices.

(** [sum(self.block(size, seed) * scale for seed, scale in ms)], which is
    what [np.sum] does with a generator: the accumulator starts at the
    [int] 0 and the terms are added left to right as they are produced. *)
Fixpoint sum_from (self : t) (size : nat) (acc : Np.vector) (ms : chain)
  : result Np.vector :=
  match ms with
  | [] => Ok acc
  | (seed, scale) :: rest =>
      b <- block self size seed ;;
      acc' <- Np.add acc (Np.scale b scale) ;;
      sum_from self size acc' rest
  end.

Definition np_sum (self : t) (size : nat) (ms : chain) : result Np.vector :=
  sum_from self size Np.int_zero ms.

(** [self.cumulative_block(size, mutations)]: the value returned or the
    exception raised, and the object after the call. *)
Definition cumulative_block (self : t) (size : nat) (mutations : chain)
  : result Np.vector * t :=
  match mutations with
  | [] => (Ok (Np.zeros size), self)
  | _ :: _ =>
      let '(seed, scale) := last mutations (0%Z, F32.zero) in
      match block self size seed with
      | Raise e => (Raise e, self)
      | Ok b =>
          let final_block := Np.scale b scale in
          if length mutations =? 1 then (Ok final_block, self)
          else
            let cache_key := removelast mutations in
            match Dict.get cache_key (_cache self) with
            | Some cached => (Np.add cached final_block, self)
            | None =>
                match np_sum self size cache_key with
                | Raise e => (Raise e, self)
                | Ok prefix =>
                    let self' :=
                      with_cache self (Dict.set cache_key prefix (_cache self)) in
                    (Np.add prefix final_block, self')
                end
            end
      end
  end.

(** [self._cache_size()] *)
Definition _cache_size (self : t) : Z :=
  fold_right Z.add 0%Z
    (map (fun x : Np.vector => Z.of_nat (length x)) (Dict.values (_cache self))).

(** One test of the loop condition of [_evict_cache] and, if it holds,
    one run of its body. [None]: the loop is over. *)
Definition evict_step (py : python) (self : t) : option (result t) :=
  if (_cache_size self >? _max_cache self)%Z then
    Some (k <- Dict.first_key py (_cache self) ;;
          Ok (with_cache self (Dict.del k (_cache self))))
  else None.

(** The [while] loop, run for at most [fuel] iterations; [None] when the
    fuel does not suffice. *)
Fixpoint evict_loop (py : python) (fuel : nat) (self : t)
  : option (result unit * t) :=
  match evict_step py self with
  | None => Some (Ok tt, self)
  | Some (Raise e) => Some (Raise e, self)
  | Some (Ok self') =>
      match fuel with
      | O => None
      | S fuel' => evict_loop py fuel' self'
      end
  end.

(** [self._evict_cache()]: an iteration that does not raise removes an
    entry, so one iteration per entry is enough. *)
Definition _evict_cache (py : python) (self : t) : option (result unit * t) :=
  evict_loop py (length (_cache self)) self.

End WithGenerator.
End NoiseSource.

(* ------------------------------------------------------------------ *)
(** ** TensorFlow: variables, their values, the session *)

Module Tf.

(** A numpy array of any rank: its shape and its elements in row-major
    order. *)
Record ndarray : Type := {
  shape : list nat;
  data : Np.vector
}.

(** A variable, known to this program by its static shape. *)
Record variable : Type := { get_shape : list nat }.

(** The session holds the current value of every variable, in the order
    of the list the [NoiseAdder] was given. *)
Definition session : Type := list ndarray.

Definition shape_eqb (s1 s2 : list nat) : bool :=
  if list_eq_dec Nat.eq_dec s1 s2 then true else false.

(** [old_val + chunk.reshape(old_val.shape)]: [reshape] refuses a chunk
    whose length is not the element count of the shape; the sum of two
    arrays of one shape is element-wise. *)
Definition add_reshaped (old_val : ndarray) (chunk : Np.vector) : result ndarray :=
  if length chunk =? Np.prod (shape old_val)
  then Ok {| shape := shape old_val; data := Np.zip_add (data old_val) chunk |}
  else Raise ValueError.

(** The feeds of [sess.run(assigns, feed_dict=dict(zip(placeholders, values)))]:
    [zip] stops at the shorter list.  A value of another shape than its
    placeholder is refused when the feeds are checked, before anything
    runs. *)
Fixpoint feeds_checked (placeholders : list (list nat)) (values : list ndarray)
  : bool :=
  match placeholders, values with
  | ph :: phs, v :: vs => shape_eqb (shape v) ph && feeds_checked phs vs
  | _, _ => true
  end.

(** [variables[i] = value] in the session *)
Fixpoint assign (sess : session) (i : nat) (value : ndarray) : session :=
  match sess, i with
  | [], _ => []
  | _ :: rest, O => value :: rest
  | a :: rest, S j => a :: assign rest j value
  end.

End Tf.

(* ------------------------------------------------------------------ *)
(** ** class NoiseAdder *)

Module NoiseAdder.

Record t : Type := {
  _variables : list Tf.variable;
  _noise : NoiseSource.t;
  _placeholders : list (list nat);
  _seeds : option chain;
  _old_vals : option (list Tf.ndarray)
}.

(** [NoiseAdder(sess, variables, noise)] *)
Definition __init__ (variables : list Tf.variable) (noise : NoiseSource.t) : t :=
  {| _variables := variables;
     _noise := noise;
     _placeholders := map Tf.get_shape variables;
     _seeds := None;
     _old_vals := None |}.

(** [self.seed(seeds)] *)
Definition seed (self : t) (seeds : chain) : t :=
  {| _variables := _variables self;
     _noise := _noise self;
     _placeholders := _placeholders self;
     _seeds := Some seeds;
     _old_vals := _old_vals self |}.

Definition with_noise (self : t) (ns : NoiseSource.t) : t :=
  {| _variables := _variables self;
     _noise := ns;
     _placeholders := _placeholders self;
     _seeds := _seeds self;
     _old_vals := _old_vals self |}.

Definition with_old_vals (self : t) (vals : list Tf.ndarray) : t :=
  {| _variables := _variables self;
     _noise := _noise self;
     _placeholders := _placeholders self;
     _seeds := _seeds self;
     _old_vals := Some vals |}.

(** [self._set_values(values)].  The assigns whose placeholders were
    fed run; a placeholder left without a value makes the run fail with
    [InvalidArgumentError], with those assigns done. *)
Definition _set_values (self : t) (values : list Tf.ndarray) (sess : Tf.session)
  : result unit * Tf.session :=
  if Tf.feeds_checked (_placeholders self) values then
    let fed := firstn (length (_placeholders self)) values in
    (if length (_placeholders self) <=? length values
     then Ok tt else Raise InvalidArgumentError,
     fed ++ skipn (length fed) sess)
  else (Raise ValueError, sess).

(** Line 80, the size [__enter__] asks for:
    [int(np.sum(np.prod(x.value for x in v.get_shape()) for v in self._variables))].
    [np.prod] gives each generator of dimensions back, and the sum of
    the generators, from the [int] 0 on, raises [TypeError] at the first
    of them. *)
Definition total_size (variables : list Tf.variable) : result nat :=
  s <- Np.sum_of_generator
         (map (fun v => Np.prod_of_generator (Tf.get_shape v)) variables) ;;
  Py.int s.

(** The [for] loop of [__enter__]: each old value gets the next
    [sub_size] entries of what is left of the noise. *)
Fixpoint add_noise (old_vals : list Tf.ndarray) (noise : Np.vector)
  : result (list Tf.ndarray) :=
  match old_vals with
  | [] => Ok []
  | old_val :: rest =>
      let sub_size := Np.prod (Tf.shape old_val) in
      new_val <- Tf.add_reshaped old_val (firstn sub_size noise) ;;
      new_vals <- add_noise rest (skipn sub_size noise) ;;
      Ok (new_val :: new_vals)
  end.

(** The chain [cumulative_block] receives: [_seeds] is [None] until
    [seed] is called, and [None] is as false as the empty chain in
    [if not mutations]. *)
Definition seeds_arg (self : t) : chain :=
  match _seeds self with
  | None => []
  | Some seeds => seeds
  end.

Section WithGenerator.
Context {RS : RandomState}.

(** [self.__enter__()] *)
Definition __enter__ (self : t) (sess : Tf.session)
  : result unit * t * Tf.session :=
  match total_size (_variables self) with
  | Raise e => (Raise e, self, sess)
  | Ok size =>
      let '(r, ns) :=
        NoiseSource.cumulative_block (_noise self) size (seeds_arg self) in
      let self := with_noise self ns in
      match r with
      | Raise e => (Raise e, self, sess)
      | Ok noise =>
          let self := with_old_vals self sess in
          match add_noise sess noise with
          | Raise e => (Raise e, self, sess)
          | Ok new_vals =>
              let '(r, sess') := _set_values self new_vals sess in
              (r, self, sess')
          end
      end
  end.

(** [self.__exit__], whatever the three arguments *)
Definition __exit__ (self : t) (sess : Tf.session) : result unit * Tf.session :=
  match _old_vals self with
  | None => (Raise TypeError, sess)
  | Some old_vals => _set_values self old_vals sess
  end.

End WithGenerator.
End NoiseAdder.

(* ------------------------------------------------------------------ *)
(** ** Histories, cache consistency and the specification's sums *)

Module Spec.
Section WithGenerator.
Context {RS : RandomState}.

(** The calls a client can make on a [NoiseSource]. *)
Inductive call : Type :=
| Block (size : nat) (seed : Z)
| CumulativeBlock (size : nat) (mutations : chain)
| EvictCache (py : python).

(** The object after one call, whatever the call returned or raised.
    [block] reads the table and leaves the object as it is. *)
Definition after_call (self : NoiseSource.t) (c : call) : NoiseSource.t :=
  match c with
  | Block _ _ => self
  | CumulativeBlock size mutations =>
      snd (NoiseSource.cumulative_block self size mutations)
  | EvictCache py =>
      match NoiseSource._evict_cache py self with
      | Some (_, self') => self'
      | None => self
      end
  end.

Definition after_calls (self : NoiseSource.t) (cs : list call) : NoiseSource.t :=
  fold_left after_call cs self.

(** The object after a sequence of [cumulative_block] calls. *)
Definition after_cumulative_blocks (self : NoiseSource.t)
    (calls : list (nat * chain)) : NoiseSource.t :=
  after_calls self
    (map (fun c => CumulativeBlock (fst c) (snd c)) calls).

Definition vector_eqb (a b : Np.vector) : bool :=
  if list_eq_dec F32.eq_dec a b then true else false.

(** A cache is consistent at [size] when every entry holds what
    [cumulative_block] would compute and store for its key at that
    size. *)
Definition entry_ok (self : NoiseSource.t) (size : nat) (entry : chain * Np.vector) : bool :=
  match NoiseSource.np_sum self size (fst entry) with
  | Ok v => vector_eqb v (snd entry)
  | Raise _ => false
  end.

Definition consistent (self : NoiseSource.t) (size : nat) : bool :=
  forallb (entry_ok self size) (NoiseSource._cache self).

(** A call that is no [cumulative_block] at a size other than [size]. *)
Definition at_size (size : nat) (c : call) : bool :=
  match c with
  | CumulativeBlock n _ => n =? size
  | _ => true
  end.

(** The direct weighted sum, following the specification's words: an
    accumulator of [size] zeros to which [block(size, seed) * scale] is
    added for every pair of the chain, in order. *)
Fixpoint weighted_sum_from (self : NoiseSource.t) (size : nat)
    (acc : Np.vector) (m : chain) : result Np.vector :=
  match m with
  | [] => Ok acc
  | (seed, scale) :: rest =>
      b <- NoiseSource.block self size seed ;;
      weighted_sum_from self size (Np.zip_add acc (Np.scale b scale)) rest
  end.

Definition weighted_sum (self : NoiseSource.t) (size : nat) (m : chain)
  : result Np.vector :=
  weighted_sum_from self size (Np.zeros size) m.

(** Two outcomes agree: both raise, or both return and the vectors hold
    the same numbers, element by element. *)
Definition agree (r1 r2 : result Np.vector) : Prop :=
  match r1, r2 with
  | Ok v1, Ok v2 => Forall2 F32.same_number v1 v2
  | Raise _, Raise _ => True
  | _, _ => False
  end.

(** Python finds a key in the dictionary with [==] and [hash], this
    file with equality of the data.  The two can differ at the scales
    [0.0] and [-0.0], which are equal for Python, and at a NaN, which
    for Python equals itself as the same object only.  [same_key] takes
    for one key whatever either could: chains with the same seeds whose
    scales are, pair by pair, the same data or both zeros. *)
Definition same_scale (x y : float32) : bool :=
  if F32.eq_dec x y then true else F32.is_zero x && F32.is_zero y.

Fixpoint same_key (a b : chain) : bool :=
  match a, b with
  | [], [] => true
  | (seed1, scale1) :: a', (seed2, scale2) :: b' =>
      (seed1 =? seed2)%Z && same_scale scale1 scale2 && same_key a' b'
  | _, _ => false
  end.

(** No key of the dictionary could be taken for [key]. *)
Definition uncached (key : chain) (d : Dict.dict) : bool :=
  forallb (fun k : chain => negb (same_key key k)) (Dict.keys d).

(** No scale of the chain is a NaN. *)
Definition no_nan (m : chain) : bool :=
  forallb (fun mu : mutation =>
             match snd mu with S754_nan => false | _ => true end) m.

(** The noise [__enter__] computes before it touches the session
    (lines 80 and 81): the size, then the cumulative block of that
    size. *)
Definition entry_noise (self : NoiseAdder.t) : result Np.vector :=
  size <- NoiseAdder.total_size (NoiseAdder._variables self) ;;
  fst (NoiseSource.cumulative_block (NoiseAdder._noise self) size
         (NoiseAdder.seeds_arg self)).

(** The session holds the values of the adder's variables, and the
    adder's placeholders have their shapes, as [__init__] makes them. *)
Definition attached (self : NoiseAdder.t) (sess : Tf.session) : Prop :=
  map Tf.shape sess = map Tf.get_shape (NoiseAdder._variables self) /\
  NoiseAdder._placeholders self = map Tf.get_shape (NoiseAdder._variables self).

End WithGenerator.
End Spec.

(* ------------------------------------------------------------------ *)
(** ** noise_seeds, and the code around an adder *)

(** numpy's global generator, the one [np.random.randint] draws from.
    What it returns depends on the state it is in, which this module
    never sets: [global_randint state high n] is what
    [np.random.randint(0, high=high, size=n)] returns in state [state]. *)
Class GlobalGenerator : Type := {
  global_state : Type;
  global_randint : global_state -> Z -> nat -> list Z;
  global_randint_length :
    forall state high n, length (global_randint state high n) = n;
  global_randint_range :
    forall state high n,
      (0 < high)%Z ->
      Forall (fun x => (0 <= x < high)%Z) (global_randint state high n)
}.

Module Program.
Section WithGenerator.
Context {RS : RandomState} {GG : GlobalGenerator}.

(** [noise_seeds(num_seeds)], called with the global generator in state
    [state].  [randint] refuses a negative size; the range it is given,
    [0, 2**32), is never empty. *)
Definition noise_seeds (state : global_state) (num_seeds : Z)
  : result (list Z) :=
  if (num_seeds <? 0)%Z then Raise ValueError
  else Ok (global_randint state (2 ^ 32) (Z.to_nat num_seeds)).

(** Code a client runs around an adder and inside its scopes: writes
    to the variables, exceptions, and scopes on the adder, which may
    nest. *)
Inductive stmt : Type :=
| Pass
| Assign (i : nat) (value : Tf.ndarray)
| RaiseStmt (e : exn)
| Seq (first second : stmt)
| With (m : chain) (body : stmt).

(** Running it.  [Assign i value] is [sess.run(tf.assign(variables[i],
    value))], which refuses a missing variable and a value of another
    shape.  [With m body] is [with self.seed(m): body]: [__exit__] runs
    whenever [__enter__] returned, whether the body returned or raised;
    it returns [None], so an exception of the body goes on
    propagating. *)
Fixpoint exec (s : stmt) (self : NoiseAdder.t) (sess : Tf.session)
  : result unit * NoiseAdder.t * Tf.session :=
  match s with
  | Pass => (Ok tt, self, sess)
  | Assign i value =>
      match nth_error sess i with
      | None => (Raise IndexError, self, sess)
      | Some old =>
          if Tf.shape_eqb (Tf.shape value) (Tf.shape old)
          then (Ok tt, self, Tf.assign sess i value)
          else (Raise ValueError, self, sess)
      end
  | RaiseStmt e => (Raise e, self, sess)
  | Seq first second =>
      match exec first self sess with
      | (Raise e, self, sess) => (Raise e, self, sess)
      | (Ok _, self, sess) => exec second self sess
      end
  | With m body =>
      match NoiseAdder.__enter__ (NoiseAdder.seed self m) sess with
      | (Raise e, self, sess) => (Raise e, self, sess)
      | (Ok _, self, sess) =>
          let '(r, self, sess) := exec body self sess in
          match NoiseAdder.__exit__ self sess with
          | (Raise e, sess) => (Raise e, self, sess)
          | (Ok _, sess) => (r, self, sess)
          end
      end
  end.

(** The blocks of a chain can be drawn at a size: the generator accepts
    every seed, and the table is not empty unless the size is 0. *)
Definition drawable (self : NoiseSource.t) (size : nat) (m : chain) : bool :=
  (negb (length (NoiseSource.noise self) =? 0) || (size =? 0)) &&
  forallb (fun mu : mutation => Rs.seed_ok (fst mu)) m.

(** The number of cached values, as [_cache_size] counts them. *)
Definition cached_values (d : Dict.dict) : Z :=
  fold_right Z.add 0%Z
    (map (fun x : Np.vector => Z.of_nat (length x)) (Dict.values d)).

End WithGenerator.
End Program.

(* ------------------------------------------------------------------ *)
(** ** A small generator to run the model on *)

Module Demo.

(** A stand-in for the Mersenne Twister: any deterministic generator
    will do, since every theorem below holds for all of them.  The
    table entries are normal binary32 numbers in [1, 2), of either
    sign. *)
Definition demo_normal (seed : Z) (n : nat) : Np.vector :=
  map (fun i =>
         let k := (seed * 37 + Z.of_nat i * 1234567)%Z in
         S754_finite (Z.odd k) (Z.to_pos (8388608 + k mod 8388608)) (-23))
      (seq 0 n).

Definition demo_randint (seed : Z) (high n : nat) : list nat :=
  map (fun i => Z.to_nat ((seed * 31 + Z.of_nat i * 17 + 7) mod Z.of_nat high))
      (seq 0 n).

Lemma demo_normal_length seed n : length (demo_normal seed n) = n.
Proof. unfold demo_normal. now rewrite length_map, length_seq. Qed.

Lemma demo_randint_length seed high n : length (demo_randint seed high n) = n.
Proof. unfold demo_randint. now rewrite length_map, length_seq. Qed.

Lemma demo_randint_range seed high n :
  0 < high -> Forall (fun i => i < high) (demo_randint seed high n).
Proof.
  intros Hh. unfold demo_randint. apply Forall_map, Forall_forall.
  intros i _.
  assert (H : (0 <= (seed * 31 + Z.of_nat i * 17 + 7) mod Z.of_nat high
               < Z.of_nat high)%Z) by (apply Z.mod_pos_bound; lia).
  lia.
Qed.

#[export] Instance generator : RandomState := {|
  normal := demo_normal;
  randint := demo_randint;
  normal_length := demo_normal_length;
  randint_length := demo_randint_length;
  randint_range := demo_randint_range
|}.

(** A stand-in for the global generator, its state a counter. *)
Definition demo_global (state high : Z) (n : nat) : list Z :=
  map (fun i => ((state * 6364136223846793005 +
                  Z.of_nat i * 1442695040888963407 + 1) mod high)%Z)
      (seq 0 n).

Lemma demo_global_length state high n : length (demo_global state high n) = n.
Proof. unfold demo_global. now rewrite length_map, length_seq. Qed.

Lemma demo_global_range state high n :
  (0 < high)%Z -> Forall (fun x => (0 <= x < high)%Z) (demo_global state high n).
Proof.
  intros Hh. unfold demo_global. apply Forall_map, Forall_forall.
  intros i _. now apply Z.mod_pos_bound.
Qed.

#[export] Instance global : GlobalGenerator := {|
  global_state := Z;
  global_randint := demo_global;
  global_randint_length := demo_global_length;
  global_randint_range := demo_global_range
|}.

(** A table of four entries and two chains over one prefix. *)
Definition table : Np.vector := [F32.one; F32.two; F32.three; F32.minus_one].

Definition fresh : NoiseSource.t :=
  {| NoiseSource.noise := table;
     NoiseSource._cache := [];
     NoiseSource._max_cache := 1 |}.

Definition m2 : chain := [(42%Z, F32.one); (7%Z, F32.two)].
Definition m3 : chain := [(42%Z, F32.one); (7%Z, F32.two); (9%Z, F32.one)].

(** Two variables of shape [(2,)], as in the specification's example. *)
Definition vars : list Tf.variable :=
  [ {| Tf.get_shape := [2] |}; {| Tf.get_shape := [2] |} ].

Definition sess0 : Tf.session :=
  [ {| Tf.shape := [2]; Tf.data := [F32.one; F32.two] |};
    {| Tf.shape := [2]; Tf.data := [F32.three; F32.minus_one] |} ].

Definition adder : NoiseAdder.t :=
  NoiseAdder.seed (NoiseAdder.__init__ vars fresh) [(42%Z, F32.one)].

(** The object after a first call at size 3: the prefix of [m2] is
    cached with three values, two more than the budget of [fresh]. *)
Definition warmed : NoiseSource.t :=
  snd (NoiseSource.cumulative_block fresh 3 m2).

(** The object [NoiseSource(1337, 16, max_cache)] builds. *)
Definition built (max_cache : Z) : NoiseSource.t :=
  {| NoiseSource.noise := demo_normal 1337 16;
     NoiseSource._cache := [];
     NoiseSource._max_cache := max_cache |}.

(** A table whose only entry is negative, to see the sign of a zero. *)
Definition negative : NoiseSource.t :=
  {| NoiseSource.noise := [F32.minus_one];
     NoiseSource._cache := [];
     NoiseSource._max_cache := 1 |}.

(** A scope body that overwrites the first variable, enters a second
    scope on the same adder, and raises. *)
Definition bad_body : Program.stmt :=
  Program.Seq
    (Program.Assign 0 {| Tf.shape := [2]; Tf.data := [F32.zero; F32.zero] |})
    (Program.Seq (Program.With m2 Program.Pass)
                 (Program.RaiseStmt IndexError)).

(** An adder over no variable at all, with a seed the generator
    refuses. *)
Definition adder_of_nothing : NoiseAdder.t :=
  NoiseAdder.seed (NoiseAdder.__init__ [] fresh) [((-1)%Z, F32.one)].

(** Under Python 2, a hash table that lists the oldest key first. *)
Definition oldest_first : python := Python2 (fun _ => 0).

End Demo.

(* ------------------------------------------------------------------ *)
(** * Properties *)

(** ** float32 and numpy arrays *)

Lemma same_number_refl x : F32.same_number x x.
Proof. now left. Qed.

Lemma add_zero_l x : F32.same_number (F32.add F32.zero x) x.
Proof.
  destruct x as [[|]| | |]; cbn; try (now left).
  right; now split.
Qed.

(** Adding the zero on the left is not the identity on the data: it
    turns the negative zero into the positive one. *)
Example add_zero_l_not_identity :
  F32.add F32.zero F32.minus_zero <> F32.minus_zero.
Proof. discriminate. Qed.

Lemma zip_add_length a b :
  length (Np.zip_add a b) = Nat.min (length a) (length b).
Proof. unfold Np.zip_add. now rewrite length_map, length_combine. Qed.

Lemma zip_add_zeros b :
  Np.zip_add (Np.zeros (length b)) b = map (F32.add F32.zero) b.
Proof.
  induction b as [|x b IH]; [reflexivity|].
  cbn. f_equal. exact IH.
Qed.

Lemma zeros_length n : length (Np.zeros n) = n.
Proof. apply repeat_length. Qed.

Lemma np_add_same_length a b :
  length a = length b -> Np.add a b = Ok (Np.zip_add a b).
Proof.
  intros H. unfold Np.add. now rewrite (proj2 (Nat.eqb_eq _ _) H).
Qed.

(** The [int] 0 plus an array is the array of zeros plus that array. *)
Lemma np_add_int_zero b :
  Np.add Np.int_zero b = Ok (Np.zip_add (Np.zeros (length b)) b).
Proof.
  unfold Np.add, Np.int_zero. cbn [length hd].
  destruct (Nat.eqb_spec 1 (length b)) as [E|E].
  - now rewrite <- E.
  - cbn. now rewrite zip_add_zeros.
Qed.

(** What [+] returns has the length numpy's broadcasting rule gives. *)
Lemma np_add_length a b c :
  Np.add a b = Ok c ->
  length c = if length a =? length b then length a
             else if length a =? 1 then length b else length a.
Proof.
  unfold Np.add.
  destruct (length a =? length b) eqn:E1.
  - intros [= <-]. rewrite zip_add_length.
    apply Nat.eqb_eq in E1. lia.
  - destruct (length a =? 1) eqn:E2.
    + intros [= <-]. apply length_map.
    + destruct (length b =? 1); [|discriminate].
      intros [= <-]. apply length_map.
Qed.

Lemma np_add_raises a b e :
  Np.add a b = Raise e ->
  e = ValueError /\ length a <> length b /\ length a <> 1 /\ length b <> 1.
Proof.
  unfold Np.add.
  destruct (Nat.eqb_spec (length a) (length b)); [discriminate|].
  destruct (Nat.eqb_spec (length a) 1); [discriminate|].
  destruct (Nat.eqb_spec (length b) 1); [discriminate|].
  intros [= <-]. auto.
Qed.

Lemma scale_length a c : length (Np.scale a c) = length a.
Proof. apply length_map. Qed.

Lemma take_length a indices v :
  Np.take a indices = Ok v -> length v = length indices.
Proof.
  revert v. induction indices as [|i rest IH]; intros v; cbn.
  - now intros [= <-].
  - destruct (nth_error a i); [|discriminate].
    destruct (Np.take a rest) as [xs|]; [|discriminate].
    cbn. intros [= <-]. cbn. f_equal. now apply IH.
Qed.

Lemma take_in_range a indices :
  Forall (fun i => i < length a) indices ->
  exists v, Np.take a indices = Ok v.
Proof.
  induction 1 as [|i rest Hi _ [xs IH]]; cbn.
  - now exists [].
  - destruct (nth_error a i) as [x|] eqn:E.
    + rewrite IH. cbn. now exists (x :: xs).
    + apply nth_error_None in E. lia.
Qed.

Section WithGenerator.
Context {RS : RandomState}.

(** ** block *)

(** [block] reads the table and nothing else of the object. *)
Lemma block_table a b size seed :
  NoiseSource.noise a = NoiseSource.noise b ->
  NoiseSource.block a size seed = NoiseSource.block b size seed.
Proof. intros H. unfold NoiseSource.block. now rewrite H. Qed.

Lemma block_length self size seed v :
  NoiseSource.block self size seed = Ok v -> length v = size.
Proof.
  unfold NoiseSource.block, Rs.create, Rs.draw_randint.
  destruct (Rs.seed_ok seed); [|discriminate]. cbn.
  destruct (length (NoiseSource.noise self) =? 0).
  - destruct (Nat.eqb_spec size 0) as [->|]; [|discriminate].
    cbn. now intros [= <-].
  - cbn. intros H. apply take_length in H. now rewrite randint_length in H.
Qed.

(** A valid seed and a table that is not empty are all [block] needs. *)
Lemma block_ok self size seed :
  Rs.seed_ok seed = true ->
  0 < length (NoiseSource.noise self) ->
  exists v, NoiseSource.block self size seed = Ok v /\ length v = size.
Proof.
  intros Hs Hn. unfold NoiseSource.block, Rs.create, Rs.draw_randint.
  rewrite Hs. cbn.
  destruct (Nat.eqb_spec (length (NoiseSource.noise self)) 0) as [E|_]; [lia|].
  cbn.
  destruct (take_in_range (NoiseSource.noise self)
              (randint_range seed size Hn)) as [v Hv].
  exists v. split; [exact Hv|].
  apply take_length in Hv. now rewrite randint_length in Hv.
Qed.

(** The calls of a history never touch the table. *)
Lemma cumulative_block_table self size m :
  NoiseSource.noise (snd (NoiseSource.cumulative_block self size m)) =
  NoiseSource.noise self.
Proof.
  unfold NoiseSource.cumulative_block.
  destruct m as [|x m']; [reflexivity|].
  destruct (last (x :: m') (0%Z, F32.zero)) as [seed scale].
  destruct (NoiseSource.block self size seed); [|reflexivity].
  destruct (length (x :: m') =? 1); [reflexivity|].
  destruct (Dict.get _ _); [reflexivity|].
  destruct (NoiseSource.np_sum _ _ _); reflexivity.
Qed.

Lemma evict_loop_table py fuel self r self' :
  NoiseSource.evict_loop py fuel self = Some (r, self') ->
  NoiseSource.noise self' = NoiseSource.noise self.
Proof.
  revert self. induction fuel as [|fuel IH]; intros self; cbn;
    unfold NoiseSource.evict_step;
    destruct (NoiseSource._cache_size self >? NoiseSource._max_cache self)%Z;
    try (now intros [= _ <-]);
    destruct (Dict.first_key py (NoiseSource._cache self)); cbn;
    try (now intros [= _ <-]); try discriminate.
  intros H. now apply IH in H.
Qed.

Lemma after_call_table self c :
  NoiseSource.noise (Spec.after_call self c) = NoiseSource.noise self.
Proof.
  destruct c as [| size m | py]; cbn.
  - reflexivity.
  - apply cumulative_block_table.
  - unfold NoiseSource._evict_cache.
    destruct (NoiseSource.evict_loop _ _ _) as [[r self']|] eqn:E; [|reflexivity].
    now apply evict_loop_table in E.
Qed.

Lemma after_calls_table cs : forall self,
  NoiseSource.noise (Spec.after_calls self cs) = NoiseSource.noise self.
Proof.
  induction cs as [|c cs IH]; intros self; [reflexivity|].
  cbn. unfold Spec.after_calls in IH. rewrite IH. apply after_call_table.
Qed.

(** C4. For a fixed table seed and table length, and a fixed block
    length and seed, [block] returns the same values on every call:
    whatever calls were made before on the same object, and on any
    other object built from the same table seed and length. *)
Theorem block_deterministic :
  forall (table_seed table_length max_cache1 max_cache2 : Z)
         (ns1 ns2 : NoiseSource.t) (history1 history2 : list Spec.call)
         (size : nat) (seed : Z),
    NoiseSource.__init__ table_seed table_length max_cache1 = Ok ns1 ->
    NoiseSource.__init__ table_seed table_length max_cache2 = Ok ns2 ->
    NoiseSource.block (Spec.after_calls ns1 history1) size seed =
    NoiseSource.block (Spec.after_calls ns2 history2) size seed.
Proof.
  intros ts tl mc1 mc2 ns1 ns2 h1 h2 size seed H1 H2.
  apply block_table. rewrite !after_calls_table.
  unfold NoiseSource.__init__ in H1, H2.
  destruct (Rs.create ts) as [state|]; [|discriminate].
  cbn in H1, H2.
  destruct (Rs.draw_normal state tl) as [tbl|]; [|discriminate].
  cbn in H1, H2. injection H1 as <-. injection H2 as <-. reflexivity.
Qed.

(** ** Construction *)

(** C8, as the program has it. A negative length is refused with
    [ValueError]; every length from 0 up, with a table seed the
    generator accepts, builds a table of exactly that many values, which
    are the generator's for that seed and length, and an empty cache. *)
Theorem init_table :
  forall (table_seed table_length max_cache : Z),
    Rs.seed_ok table_seed = true ->
    ((table_length < 0)%Z ->
     NoiseSource.__init__ table_seed table_length max_cache = Raise ValueError) /\
    ((0 <= table_length)%Z ->
     exists ns,
       NoiseSource.__init__ table_seed table_length max_cache = Ok ns /\
       Z.of_nat (length (NoiseSource.noise ns)) = table_length /\
       NoiseSource.noise ns = normal table_seed (Z.to_nat table_length) /\
       NoiseSource._cache ns = []).
Proof.
  intros ts tl mc Hs.
  unfold NoiseSource.__init__, Rs.create, Rs.draw_normal. rewrite Hs. cbn.
  split; intros Hl.
  - now rewrite (proj2 (Z.ltb_lt _ _) Hl).
  - rewrite (proj2 (Z.ltb_ge _ _) Hl). cbn.
    eexists. split; [reflexivity|]. cbn.
    rewrite normal_length. repeat split. lia.
Qed.

End WithGenerator.

(** ** The cache *)

Lemma get_In key d v : Dict.get key d = Some v -> In (key, v) d.
Proof.
  induction d as [|[k w] d IH]; cbn; [discriminate|].
  destruct (chain_eq_dec key k) as [->|_].
  - intros [= ->]. now left.
  - intros H. right. now apply IH.
Qed.

Lemma get_app key d e v :
  Dict.get key d = Some v -> Dict.get key (d ++ e) = Some v.
Proof.
  induction d as [|[k w] d IH]; cbn; [discriminate|].
  destruct (chain_eq_dec key k); auto.
Qed.

(** Storing under a key that is absent appends the entry. *)
Lemma set_absent key value d :
  Dict.get key d = None -> Dict.set key value d = d ++ [(key, value)].
Proof.
  induction d as [|[k w] d IH]; cbn; [reflexivity|].
  destruct (chain_eq_dec key k); [discriminate|].
  intros H. now rewrite IH.
Qed.

Lemma with_cache_same (self : NoiseSource.t) :
  NoiseSource.with_cache self (NoiseSource._cache self) = self.
Proof. now destruct self. Qed.

Section Cache.
Context {RS : RandomState}.

Lemma sum_from_table a b size acc ms :
  NoiseSource.noise a = NoiseSource.noise b ->
  NoiseSource.sum_from a size acc ms = NoiseSource.sum_from b size acc ms.
Proof.
  intros H. revert acc. induction ms as [|[seed scale] ms IH]; intros acc; cbn.
  - reflexivity.
  - rewrite (block_table a b size seed H).
    destruct (NoiseSource.block b size seed) as [blk|]; [|reflexivity]. cbn.
    destruct (Np.add acc (Np.scale blk scale)); [|reflexivity]. cbn.
    apply IH.
Qed.

Lemma np_sum_table a b size ms :
  NoiseSource.noise a = NoiseSource.noise b ->
  NoiseSource.np_sum a size ms = NoiseSource.np_sum b size ms.
Proof. apply sum_from_table. Qed.

(** What one call does to the object: nothing, or one entry appended
    under the prefix, which was absent. *)
Lemma cumulative_block_cache self size m :
  snd (NoiseSource.cumulative_block self size m) = self \/
  (2 <= length m /\
   Dict.get (removelast m) (NoiseSource._cache self) = None /\
   exists prefix,
     NoiseSource.np_sum self size (removelast m) = Ok prefix /\
     snd (NoiseSource.cumulative_block self size m) =
     NoiseSource.with_cache self
       (NoiseSource._cache self ++ [(removelast m, prefix)])).
Proof.
  unfold NoiseSource.cumulative_block.
  destruct m as [|x m']; [now left|].
  destruct (last (x :: m') (0%Z, F32.zero)) as [seed scale].
  destruct (NoiseSource.block self size seed); [|now left].
  destruct (Nat.eqb_spec (length (x :: m')) 1) as [|Hlen]; [now left|].
  destruct (Dict.get _ _) eqn:Hget; [now left|].
  destruct (NoiseSource.np_sum _ _ _) as [prefix|] eqn:Hsum; [|now left].
  right. split; [cbn in *; lia|]. split; [reflexivity|].
  exists prefix. split; [reflexivity|]. cbn [snd].
  now rewrite (set_absent _ _ _ Hget).
Qed.

Lemma cumulative_block_short self size m :
  length m <= 1 -> snd (NoiseSource.cumulative_block self size m) = self.
Proof.
  intros H. destruct (cumulative_block_cache self size m) as [E|[H2 _]];
    [exact E | lia].
Qed.

Lemma cumulative_block_hit self size m :
  Dict.get (removelast m) (NoiseSource._cache self) <> None ->
  snd (NoiseSource.cumulative_block self size m) = self.
Proof.
  intros H. destruct (cumulative_block_cache self size m) as [E|[_ [H2 _]]];
    [exact E | contradiction].
Qed.

Lemma cumulative_block_appends self size m :
  exists added,
    NoiseSource._cache (snd (NoiseSource.cumulative_block self size m)) =
    NoiseSource._cache self ++ added /\ length added <= 1.
Proof.
  destruct (cumulative_block_cache self size m)
    as [E|(_ & _ & prefix & _ & E)]; rewrite E.
  - exists []. rewrite app_nil_r. split; [reflexivity | cbn; lia].
  - eexists. split; [reflexivity | cbn; lia].
Qed.

Lemma after_cumulative_blocks_appends calls : forall self,
  exists added,
    NoiseSource._cache (Spec.after_cumulative_blocks self calls) =
    NoiseSource._cache self ++ added.
Proof.
  induction calls as [|[size m] calls IH]; intros self.
  - exists []. cbn. now rewrite app_nil_r.
  - change (Spec.after_cumulative_blocks self ((size, m) :: calls))
      with (Spec.after_cumulative_blocks
              (snd (NoiseSource.cumulative_block self size m)) calls).
    destruct (IH (snd (NoiseSource.cumulative_block self size m))) as [a2 E2].
    destruct (cumulative_block_appends self size m) as [a1 [E1 _]].
    exists (a1 ++ a2). rewrite E2, E1. now rewrite app_assoc.
Qed.

(** C10. [cumulative_block] never removes or overwrites a cache entry:
    after any sequence of calls the cache is the old cache followed by
    the entries added, so every key that was bound is bound to the same
    value; a call with an empty or one-element chain leaves the object
    as it was, and so does a call whose prefix is already cached. *)
Theorem cache_only_grows :
  forall (self : NoiseSource.t) (calls : list (nat * chain))
         (size : nat) (m : chain),
    (exists added,
        NoiseSource._cache (Spec.after_cumulative_blocks self calls) =
        NoiseSource._cache self ++ added) /\
    (forall key value,
        Dict.get key (NoiseSource._cache self) = Some value ->
        Dict.get key (NoiseSource._cache (Spec.after_cumulative_blocks self calls)) =
        Some value) /\
    (length m <= 1 ->
     snd (NoiseSource.cumulative_block self size m) = self) /\
    (Dict.get (removelast m) (NoiseSource._cache self) <> None ->
     snd (NoiseSource.cumulative_block self size m) = self).
Proof.
  intros self calls size m.
  destruct (after_cumulative_blocks_appends calls self) as [added E].
  split; [now exists added|].
  split; [|split].
  - intros key value H. rewrite E. now apply get_app.
  - apply cumulative_block_short.
  - apply cumulative_block_hit.
Qed.

(** *** Consistency *)

Lemma vector_eqb_eq a b : Spec.vector_eqb a b = true <-> a = b.
Proof.
  unfold Spec.vector_eqb. destruct (list_eq_dec F32.eq_dec a b);
    split; congruence.
Qed.

Lemma entry_ok_spec self size key value :
  Spec.entry_ok self size (key, value) = true <->
  NoiseSource.np_sum self size key = Ok value.
Proof.
  unfold Spec.entry_ok. cbn [fst snd].
  destruct (NoiseSource.np_sum self size key) as [v|e].
  - split; intros H.
    + apply vector_eqb_eq in H. congruence.
    + apply vector_eqb_eq. congruence.
  - split; discriminate.
Qed.

Lemma consistent_get self size key value :
  Spec.consistent self size = true ->
  Dict.get key (NoiseSource._cache self) = Some value ->
  NoiseSource.np_sum self size key = Ok value.
Proof.
  unfold Spec.consistent. rewrite forallb_forall. intros H Hget.
  apply entry_ok_spec, H. now apply get_In.
Qed.

(** A new object has an empty cache, which is consistent at every
    size. *)
Lemma consistent_empty self size :
  NoiseSource._cache self = [] -> Spec.consistent self size = true.
Proof. unfold Spec.consistent. now intros ->. Qed.

(** Calls at one size keep the cache consistent at that size. *)
Lemma consistent_cumulative_block self size m :
  Spec.consistent self size = true ->
  Spec.consistent (snd (NoiseSource.cumulative_block self size m)) size = true.
Proof.
  intros H.
  destruct (cumulative_block_cache self size m)
    as [E|(_ & _ & prefix & Hsum & E)]; rewrite E; [exact H|].
  unfold Spec.consistent in *. cbn. rewrite forallb_app. cbn.
  rewrite andb_true_r. apply andb_true_intro. split.
  - rewrite forallb_forall in *. intros [k v] Hin.
    apply entry_ok_spec. rewrite <- (proj1 (entry_ok_spec self size k v) (H _ Hin)).
    now apply np_sum_table.
  - apply entry_ok_spec. rewrite <- Hsum. now apply np_sum_table.
Qed.

(** Eviction only removes entries, so it keeps the cache consistent. *)
Lemma del_In key d x : In x (Dict.del key d) -> In x d.
Proof.
  induction d as [|[k v] d IH]; cbn; [tauto|].
  destruct (chain_eq_dec key k); cbn; [tauto|].
  intros [H|H]; [now left | right; now apply IH].
Qed.

Lemma evict_loop_entries py fuel : forall self r self',
  NoiseSource.evict_loop py fuel self = Some (r, self') ->
  forall x, In x (NoiseSource._cache self') -> In x (NoiseSource._cache self).
Proof.
  induction fuel as [|fuel IH]; intros self r self'; cbn;
    unfold NoiseSource.evict_step;
    destruct (NoiseSource._cache_size self >? NoiseSource._max_cache self)%Z;
    try (now intros [= _ <-]);
    destruct (Dict.first_key py (NoiseSource._cache self)) as [k|]; cbn;
    try (now intros [= _ <-]); try discriminate.
  intros H x Hx. apply (IH _ _ _ H) in Hx. cbn in Hx.
  now apply del_In in Hx.
Qed.

Lemma consistent_entries a b size :
  NoiseSource.noise b = NoiseSource.noise a ->
  (forall x, In x (NoiseSource._cache b) -> In x (NoiseSource._cache a)) ->
  Spec.consistent a size = true -> Spec.consistent b size = true.
Proof.
  unfold Spec.consistent. rewrite !forallb_forall. intros Ht Hsub H [k v] Hin.
  apply entry_ok_spec. rewrite (np_sum_table b a size k Ht).
  apply entry_ok_spec, H, Hsub, Hin.
Qed.

(** Every history whose [cumulative_block] calls are all at one size
    leaves the cache consistent at that size. *)
Lemma consistent_after_calls size cs : forall self,
  Spec.consistent self size = true ->
  forallb (Spec.at_size size) cs = true ->
  Spec.consistent (Spec.after_calls self cs) size = true.
Proof.
  induction cs as [|c cs IH]; intros self Hc Hs; [exact Hc|].
  cbn in Hs. apply andb_prop in Hs. destruct Hs as [Hs1 Hs2].
  change (Spec.after_calls self (c :: cs))
    with (Spec.after_calls (Spec.after_call self c) cs).
  apply IH; [|exact Hs2].
  destruct c as [n seed | n m | py]; cbn in *.
  - exact Hc.
  - apply Nat.eqb_eq in Hs1. subst n. now apply consistent_cumulative_block.
  - unfold NoiseSource._evict_cache.
    destruct (NoiseSource.evict_loop _ _ _) as [[r self']|] eqn:E; [|exact Hc].
    apply (consistent_entries self); [|exact (evict_loop_entries _ _ _ E)|exact Hc].
    now apply evict_loop_table in E.
Qed.

(** With a consistent cache, the value of a call is the one computed
    without looking anything up. *)
Lemma cumulative_block_value self size x m' :
  Spec.consistent self size = true ->
  fst (NoiseSource.cumulative_block self size (x :: m')) =
  (let '(seed, scale) := last (x :: m') (0%Z, F32.zero) in
   b <- NoiseSource.block self size seed ;;
   if length (x :: m') =? 1 then Ok (Np.scale b scale)
   else (prefix <- NoiseSource.np_sum self size (removelast (x :: m')) ;;
         Np.add prefix (Np.scale b scale))).
Proof.
  intros H. unfold NoiseSource.cumulative_block.
  destruct (last (x :: m') (0%Z, F32.zero)) as [seed scale].
  destruct (NoiseSource.block self size seed) as [b|]; [|reflexivity]. cbn [bind].
  destruct (length (x :: m') =? 1); [reflexivity|].
  destruct (Dict.get _ _) as [cached|] eqn:Hget.
  - now rewrite (consistent_get _ _ _ H Hget).
  - destruct (NoiseSource.np_sum _ _ _); reflexivity.
Qed.

(** The value of a call depends on the table alone, as long as the
    caches are consistent. *)
Lemma cumulative_block_same_value self1 self2 size m :
  NoiseSource.noise self1 = NoiseSource.noise self2 ->
  Spec.consistent self1 size = true ->
  Spec.consistent self2 size = true ->
  fst (NoiseSource.cumulative_block self1 size m) =
  fst (NoiseSource.cumulative_block self2 size m).
Proof.
  intros Ht H1 H2.
  destruct m as [|x m']; [reflexivity|].
  rewrite !cumulative_block_value by assumption.
  destruct (last (x :: m') (0%Z, F32.zero)) as [seed scale].
  rewrite (block_table self1 self2 size seed Ht).
  now rewrite (np_sum_table self1 self2 size _ Ht).
Qed.

(** In particular, two objects over one table answer alike whatever
    was asked of each before, as long as it was asked at this size. *)
Corollary cumulative_block_same_value_histories
    (table : Np.vector) (budget1 budget2 : Z) (size : nat)
    (history1 history2 : list Spec.call) (m : chain) :
  forallb (Spec.at_size size) history1 = true ->
  forallb (Spec.at_size size) history2 = true ->
  fst (NoiseSource.cumulative_block
         (Spec.after_calls
            {| NoiseSource.noise := table; NoiseSource._cache := [];
               NoiseSource._max_cache := budget1 |} history1) size m) =
  fst (NoiseSource.cumulative_block
         (Spec.after_calls
            {| NoiseSource.noise := table; NoiseSource._cache := [];
               NoiseSource._max_cache := budget2 |} history2) size m).
Proof.
  intros H1 H2. apply cumulative_block_same_value.
  - now rewrite !after_calls_table.
  - apply consistent_after_calls; [now apply consistent_empty | exact H1].
  - apply consistent_after_calls; [now apply consistent_empty | exact H2].
Qed.

(** C3. The value [cumulative_block] returns does not depend on what
    the cache holds: two objects over the same table, each with a
    consistent cache (the empty one, or one in which the prefix is
    already stored), return the same vector or raise alike. *)
Theorem cache_transparent :
  forall (self1 self2 : NoiseSource.t) (size : nat) (m : chain),
    NoiseSource.noise self1 = NoiseSource.noise self2 ->
    Spec.consistent self1 size = true ->
    Spec.consistent self2 size = true ->
    fst (NoiseSource.cumulative_block self1 size m) =
    fst (NoiseSource.cumulative_block self2 size m).
Proof.
  intros self1 self2 size m. apply cumulative_block_same_value.
Qed.

End Cache.

(** ** The cumulative block and the direct weighted sum *)

Lemma same_numbers_refl (v : Np.vector) : Forall2 F32.same_number v v.
Proof. induction v; constructor; auto using same_number_refl. Qed.

Lemma same_number_sym x y : F32.same_number x y -> F32.same_number y x.
Proof. intros [->|[Hx Hy]]; [now left | right; now split]. Qed.

Lemma get_set_same key value d : Dict.get key (Dict.set key value d) = Some value.
Proof.
  induction d as [|[k w] d IH]; cbn.
  - destruct (chain_eq_dec key key); congruence.
  - destruct (chain_eq_dec key k) as [->|Hne]; cbn.
    + destruct (chain_eq_dec k k); congruence.
    + destruct (chain_eq_dec key k); congruence.
Qed.

Section Sums.
Context {RS : RandomState}.

(** [block] raises nothing but [ValueError]: the indices drawn are
    always inside the table. *)
Lemma block_raises self size seed e :
  NoiseSource.block self size seed = Raise e -> e = ValueError.
Proof.
  unfold NoiseSource.block, Rs.create, Rs.draw_randint.
  destruct (Rs.seed_ok seed); cbn; [|now intros [= <-]].
  destruct (Nat.eqb_spec (length (NoiseSource.noise self)) 0) as [|Hn].
  { destruct (size =? 0); cbn; [discriminate | now intros [= <-]]. }
  cbn.
  assert (Hpos : 0 < length (NoiseSource.noise self)) by lia.
  destruct (take_in_range (NoiseSource.noise self)
              (randint_range seed size Hpos)) as [v ->].
  discriminate.
Qed.

Lemma weighted_sum_from_length self size ms : forall acc v,
  length acc = size ->
  Spec.weighted_sum_from self size acc ms = Ok v -> length v = size.
Proof.
  induction ms as [|[seed scale] ms IH]; intros acc v Hacc; cbn.
  - now intros [= <-].
  - destruct (NoiseSource.block self size seed) as [b|] eqn:Hb; [|discriminate].
    cbn. apply IH. rewrite zip_add_length, scale_length.
    rewrite (block_length _ _ _ Hb). lia.
Qed.

Lemma weighted_sum_from_raises self size ms : forall acc e,
  Spec.weighted_sum_from self size acc ms = Raise e -> e = ValueError.
Proof.
  induction ms as [|[seed scale] ms IH]; intros acc e; cbn; [discriminate|].
  destruct (NoiseSource.block self size seed) as [b|e'] eqn:Hb; cbn.
  - apply IH.
  - intros [= <-]. now apply block_raises in Hb.
Qed.

Lemma weighted_sum_from_app self size ms seed scale : forall acc,
  Spec.weighted_sum_from self size acc (ms ++ [(seed, scale)]) =
  (acc' <- Spec.weighted_sum_from self size acc ms ;;
   b <- NoiseSource.block self size seed ;;
   Ok (Np.zip_add acc' (Np.scale b scale))).
Proof.
  induction ms as [|[s c] ms IH]; intros acc; cbn.
  - now destruct (NoiseSource.block self size seed).
  - destruct (NoiseSource.block self size s); cbn; [apply IH | reflexivity].
Qed.

(** From an accumulator of the right length on, Python's [sum] and the
    direct sum are the same computation. *)
Lemma sum_from_weighted self size ms : forall acc,
  length acc = size ->
  NoiseSource.sum_from self size acc ms =
  Spec.weighted_sum_from self size acc ms.
Proof.
  induction ms as [|[seed scale] ms IH]; intros acc Hacc; cbn; [reflexivity|].
  destruct (NoiseSource.block self size seed) as [b|] eqn:Hb; [|reflexivity].
  cbn. apply block_length in Hb.
  rewrite np_add_same_length by (rewrite scale_length; lia).
  cbn. apply IH. rewrite zip_add_length, scale_length. lia.
Qed.

(** ... and the [int] 0 the first starts from acts as the zeros the
    second starts from. *)
Lemma np_sum_weighted self size ms :
  ms <> [] ->
  NoiseSource.np_sum self size ms = Spec.weighted_sum self size ms.
Proof.
  destruct ms as [|[seed scale] ms]; [congruence|]. intros _.
  unfold NoiseSource.np_sum, Spec.weighted_sum. cbn.
  destruct (NoiseSource.block self size seed) as [b|] eqn:Hb; [|reflexivity].
  cbn. apply block_length in Hb.
  rewrite np_add_int_zero, scale_length, Hb. cbn.
  apply sum_from_weighted.
  rewrite zip_add_length, zeros_length, scale_length. lia.
Qed.

Lemma np_sum_length self size ms v :
  ms <> [] -> NoiseSource.np_sum self size ms = Ok v -> length v = size.
Proof.
  intros Hne H. rewrite np_sum_weighted in H by assumption.
  eapply weighted_sum_from_length; [apply zeros_length | exact H].
Qed.

Lemma weighted_sum_from_ok self size ms : forall acc,
  length acc = size ->
  0 < length (NoiseSource.noise self) ->
  forallb (fun mu : mutation => Rs.seed_ok (fst mu)) ms = true ->
  exists v, Spec.weighted_sum_from self size acc ms = Ok v /\ length v = size.
Proof.
  induction ms as [|[seed scale] ms IH]; intros acc Hacc Hn Hs; cbn.
  - now exists acc.
  - cbn in Hs. apply andb_prop in Hs. destruct Hs as [Hs1 Hs2].
    destruct (block_ok self size seed Hs1 Hn) as [b [Hb Hlen]].
    rewrite Hb. cbn. apply IH; auto.
    rewrite zip_add_length, scale_length. lia.
Qed.

Lemma np_sum_ok self size ms :
  ms <> [] ->
  0 < length (NoiseSource.noise self) ->
  forallb (fun mu : mutation => Rs.seed_ok (fst mu)) ms = true ->
  exists v, NoiseSource.np_sum self size ms = Ok v /\ length v = size.
Proof.
  intros Hne Hn Hs. rewrite np_sum_weighted by assumption.
  apply weighted_sum_from_ok; auto. apply zeros_length.
Qed.

(** A call on a chain of two pairs or more, by cases. *)
Lemma cumulative_block_snoc self size prefix seed scale :
  prefix <> [] ->
  NoiseSource.cumulative_block self size (prefix ++ [(seed, scale)]) =
  match NoiseSource.block self size seed with
  | Raise e => (Raise e, self)
  | Ok b =>
      match Dict.get prefix (NoiseSource._cache self) with
      | Some cached => (Np.add cached (Np.scale b scale), self)
      | None =>
          match NoiseSource.np_sum self size prefix with
          | Raise e => (Raise e, self)
          | Ok p =>
              (Np.add p (Np.scale b scale),
               NoiseSource.with_cache self
                 (Dict.set prefix p (NoiseSource._cache self)))
          end
      end
  end.
Proof.
  intros Hne. unfold NoiseSource.cumulative_block.
  destruct (prefix ++ [(seed, scale)]) as [|x rest] eqn:E.
  - now destruct prefix.
  - rewrite <- E. rewrite last_last, removelast_last.
    destruct (NoiseSource.block self size seed); [|reflexivity].
    destruct (length _ =? 1) eqn:Hl; [|reflexivity].
    apply Nat.eqb_eq in Hl. rewrite length_app in Hl.
    destruct prefix; [congruence | cbn in Hl; lia].
Qed.

(** With a cache filled at the requested size (the empty cache of
    a new object is one), [cumulative_block(size, m)] is the direct
    weighted sum of [block(size, seed) * scale] over the pairs of [m]:
    both raise, or both return and the vectors hold the same numbers
    element by element; they are the same data unless [m] has exactly
    one pair, where the sum's leading zero can flip the sign of a zero.
    For the empty chain the result is [size] zeros, whatever the cache
    and the size. *)
Theorem cumulative_block_weighted_sum :
  forall (self : NoiseSource.t) (size : nat) (m : chain),
    (Spec.consistent self size = true ->
     Spec.agree (fst (NoiseSource.cumulative_block self size m))
                (Spec.weighted_sum self size m) /\
     (length m <> 1 ->
      fst (NoiseSource.cumulative_block self size m) =
      Spec.weighted_sum self size m)) /\
    (fst (NoiseSource.cumulative_block self size []) = Ok (repeat F32.zero size) /\
     length (repeat F32.zero size) = size).
Proof.
  intros self size m. split; [|split; [reflexivity | apply repeat_length]].
  intros Hc.
  destruct m as [|x m'] using rev_ind.
  { cbn. split; [|reflexivity]. unfold Spec.weighted_sum, Np.zeros. cbn.
    apply same_numbers_refl. }
  clear IHm'. destruct x as [seed scale].
  destruct m' as [|y m'].
  - (* one pair *)
    cbn. unfold Spec.weighted_sum. cbn.
    split; [|intros H; congruence].
    destruct (NoiseSource.block self size seed) as [b|] eqn:Hb; cbn; [|exact I].
    rewrite <- (block_length _ _ _ Hb), <- (scale_length b scale).
    rewrite zip_add_zeros.
    induction (Np.scale b scale) as [|z zs IH]; cbn; constructor; auto.
    apply same_number_sym, add_zero_l.
  - (* two pairs or more *)
    assert (Hne : y :: m' <> []) by discriminate.
    assert (E : fst (NoiseSource.cumulative_block self size
                       ((y :: m') ++ [(seed, scale)])) =
                Spec.weighted_sum self size ((y :: m') ++ [(seed, scale)])).
    { rewrite (cumulative_block_snoc self size seed scale Hne).
      unfold Spec.weighted_sum. rewrite weighted_sum_from_app.
      fold (Spec.weighted_sum self size (y :: m')).
      rewrite <- (np_sum_weighted self size Hne).
      destruct (NoiseSource.block self size seed) as [b|e] eqn:Hb.
      - destruct (Dict.get (y :: m') (NoiseSource._cache self)) as [cached|] eqn:Hg.
        + pose proof (consistent_get _ _ _ Hc Hg) as Hp. rewrite Hp. cbn.
          apply np_add_same_length. rewrite scale_length, (block_length _ _ _ Hb).
          exact (np_sum_length _ _ Hne Hp).
        + destruct (NoiseSource.np_sum self size (y :: m')) as [p|e] eqn:Hp;
            cbn; [|reflexivity].
          apply np_add_same_length. rewrite scale_length, (block_length _ _ _ Hb).
          exact (np_sum_length _ _ Hne Hp).
      - apply block_raises in Hb. subst e.
        destruct (NoiseSource.np_sum self size (y :: m')) as [p|e] eqn:Hp;
          cbn; [reflexivity|].
        rewrite np_sum_weighted in Hp by assumption.
        apply weighted_sum_from_raises in Hp. now subst e. }
    split; [|intros _; exact E].
    rewrite E. unfold Spec.agree.
    destruct (Spec.weighted_sum self size ((y :: m') ++ [(seed, scale)]));
      [|exact I].
    apply same_numbers_refl.
Qed.

End Sums.

(** ** Eviction *)

Section Eviction.
Context {RS : RandomState}.

(** Within budget, [_evict_cache] does nothing and raises nothing,
    under either interpreter. *)
Lemma evict_cache_within_budget py self :
  (NoiseSource._cache_size self <= NoiseSource._max_cache self)%Z ->
  NoiseSource._evict_cache py self = Some (Ok tt, self).
Proof.
  intros H. unfold NoiseSource._evict_cache.
  destruct (length (NoiseSource._cache self)); cbn;
    unfold NoiseSource.evict_step;
    rewrite Z.gtb_ltb, (proj2 (Z.ltb_ge _ _) H); reflexivity.
Qed.

(** C9. Over budget, under Python 3, the first run of the loop body
    raises [TypeError] at [self._cache.keys()[0]]: nothing is evicted
    and the cache is as far over budget as before. *)
Theorem evict_cache_python3 :
  forall self : NoiseSource.t,
    (NoiseSource._cache_size self > NoiseSource._max_cache self)%Z ->
    NoiseSource._evict_cache Python3 self = Some (Raise TypeError, self).
Proof.
  intros self H. unfold NoiseSource._evict_cache.
  assert (E : (NoiseSource._cache_size self >? NoiseSource._max_cache self)%Z = true).
  { rewrite Z.gtb_ltb. apply Z.ltb_lt. lia. }
  destruct (length (NoiseSource._cache self)); cbn;
    unfold NoiseSource.evict_step; rewrite E; reflexivity.
Qed.

End Eviction.

(** ** The perturbation scope *)

Lemma total_size_empty : NoiseAdder.total_size [] = Ok 0.
Proof. reflexivity. Qed.

(** Over one variable or more, line 80 raises [TypeError]: the first
    thing [sum] does is add a generator to the [int] 0. *)
Lemma total_size_raises v variables :
  NoiseAdder.total_size (v :: variables) = Raise TypeError.
Proof. reflexivity. Qed.

Lemma set_values_nothing self values :
  NoiseAdder._placeholders self = [] ->
  NoiseAdder._set_values self values [] = (Ok tt, []).
Proof.
  intros H. unfold NoiseAdder._set_values. rewrite H. reflexivity.
Qed.

Lemma attached_nothing self sess :
  Spec.attached self sess ->
  NoiseAdder._variables self = [] ->
  sess = [] /\ NoiseAdder._placeholders self = [].
Proof.
  intros [H1 H2] Hv. rewrite Hv in *. cbn in *. split; [|exact H2].
  now destruct sess.
Qed.

Section Scope.
Context {RS : RandomState}.


(** Over one variable or more, [__enter__] raises [TypeError] at line
    80, before it has asked for any noise, read the session, or written
    to it or to the adder. *)
Lemma enter_over_variables self sess :
  NoiseAdder._variables self <> [] ->
  NoiseAdder.__enter__ self sess = (Raise TypeError, self, sess).
Proof.
  intros H. unfold NoiseAdder.__enter__.
  destruct (NoiseAdder._variables self) as [|v vs]; [congruence|].
  now rewrite total_size_raises.
Qed.






(** C6. Over one variable or more, [__enter__] raises [TypeError] at
    line 80 and perturbs nothing: the session, the adder and the noise
    source are as they were, and the body of the scope does not run. *)
Theorem enter_raises_over_variables :
  forall (self : NoiseAdder.t) (sess : Tf.session) (body : Program.stmt)
         (m : chain),
    NoiseAdder._variables self <> [] ->
    NoiseAdder.__enter__ (NoiseAdder.seed self m) sess =
      (Raise TypeError, NoiseAdder.seed self m, sess) /\
    Program.exec (Program.With m body) self sess =
      (Raise TypeError, NoiseAdder.seed self m, sess).
Proof.
  intros self sess body m H.
  assert (E : NoiseAdder.__enter__ (NoiseAdder.seed self m) sess =
              (Raise TypeError, NoiseAdder.seed self m, sess))
    by now apply enter_over_variables.
  split; [exact E|]. cbn [Program.exec]. now rewrite E.
Qed.

(** C7. If computing the noise raises, be it at the size (line 80) or
    in [cumulative_block] (line 81), [__enter__] raises the same
    exception and the session is untouched: the one write to the store
    comes after the noise has been computed. *)
Theorem enter_noise_failure :
  forall (self : NoiseAdder.t) (sess : Tf.session) (e : exn),
    Spec.entry_noise self = Raise e ->
    fst (fst (NoiseAdder.__enter__ self sess)) = Raise e /\
    snd (NoiseAdder.__enter__ self sess) = sess.
Proof.
  intros self sess e. unfold Spec.entry_noise, NoiseAdder.__enter__.
  destruct (NoiseAdder.total_size _) as [size|e0]; cbn [bind].
  - destruct (NoiseSource.cumulative_block _ _ _) as [r ns]. cbn [fst].
    intros ->. now split.
  - intros [= ->]. now split.
Qed.

End Scope.
(* ------------------------------------------------------------------ *)
(** * Further properties of the module *)

(** ** block *)

Lemma take_In a indices v :
  Np.take a indices = Ok v -> forall x, In x v -> In x a.
Proof.
  revert v. induction indices as [|i rest IH]; intros v; cbn.
  - intros [= <-] x [].
  - destruct (nth_error a i) as [y|] eqn:E; [|discriminate].
    destruct (Np.take a rest) as [xs|]; [|discriminate].
    cbn. intros [= <-] x [<-|Hx].
    + now apply nth_error_In in E.
    + now apply (IH xs).
Qed.

Section Blocks.
Context {RS : RandomState}.

Lemma block_returned self size seed v :
  NoiseSource.block self size seed = Ok v ->
  Rs.seed_ok seed = true /\
  (0 < length (NoiseSource.noise self) \/ size = 0).
Proof.
  unfold NoiseSource.block, Rs.create, Rs.draw_randint.
  destruct (Rs.seed_ok seed); [|discriminate]. cbn.
  destruct (Nat.eqb_spec (length (NoiseSource.noise self)) 0).
  - destruct (Nat.eqb_spec size 0); [|discriminate]. now auto.
  - intros _. split; [reflexivity | left; lia].
Qed.

(** Nothing is drawn for a block of size 0, so that a valid seed is
    all it takes, even on an empty table. *)
Lemma block_ok_any self size seed :
  Rs.seed_ok seed = true ->
  0 < length (NoiseSource.noise self) \/ size = 0 ->
  exists v, NoiseSource.block self size seed = Ok v /\ length v = size.
Proof.
  intros Hs [Hn| ->]; [now apply block_ok|].
  assert (H : exists v, NoiseSource.block self 0 seed = Ok v).
  { unfold NoiseSource.block, Rs.create, Rs.draw_randint. rewrite Hs. cbn.
    destruct (length (NoiseSource.noise self) =? 0); cbn; [now exists []|].
    assert (E : randint seed (length (NoiseSource.noise self)) 0 = []).
    { apply length_zero_iff_nil, randint_length. }
    rewrite E. now exists []. }
  destruct H as [v Hv]. exists v. split; [exact Hv|].
  exact (block_length _ _ _ Hv).
Qed.

(** With a seed in [0, 2^32) and a table that is not empty, [block]
    returns exactly [size] values, each of them an entry of the table:
    the block is a sample of the table, with replacement. *)
Theorem block_samples_table :
  forall (self : NoiseSource.t) (size : nat) (seed : Z),
    Rs.seed_ok seed = true ->
    0 < length (NoiseSource.noise self) ->
    exists v,
      NoiseSource.block self size seed = Ok v /\
      length v = size /\
      forall x, In x v -> In x (NoiseSource.noise self).
Proof.
  intros self size seed Hs Hn.
  destruct (block_ok self size seed Hs Hn) as [v [Hv Hl]].
  exists v. repeat split; auto.
  unfold NoiseSource.block, Rs.create, Rs.draw_randint in Hv.
  rewrite Hs in Hv. cbn in Hv.
  destruct (Nat.eqb_spec (length (NoiseSource.noise self)) 0); [lia|].
  cbn in Hv. exact (take_In _ _ Hv).
Qed.

(** [block] raises exactly when the seed is outside [0, 2^32), or the
    table is empty and one value or more is asked for; what it raises
    is [ValueError].  (A block of size 0 draws nothing and is returned,
    empty, even from an empty table.) *)
Theorem block_raises_iff :
  forall (self : NoiseSource.t) (size : nat) (seed : Z),
    NoiseSource.block self size seed = Raise ValueError <->
    (Rs.seed_ok seed = false \/
     (NoiseSource.noise self = [] /\ size <> 0)).
Proof.
  intros self size seed. split.
  - intros H. destruct (Rs.seed_ok seed) eqn:Hs; [|now left]. right.
    destruct (NoiseSource.noise self) as [|x t] eqn:Ht.
    + split; [reflexivity|]. intros ->.
      destruct (@block_ok_any self 0 seed Hs) as [v [Hv _]]; [now right|].
      congruence.
    + destruct (block_ok self size seed Hs) as [v [Hv _]].
      * rewrite Ht. cbn. lia.
      * congruence.
  - unfold NoiseSource.block, Rs.create, Rs.draw_randint.
    intros [Hs | [Ht Hn]].
    + now rewrite Hs.
    + rewrite Ht. destruct (Rs.seed_ok seed); [|reflexivity]. cbn.
      now destruct (Nat.eqb_spec size 0).
Qed.

End Blocks.

(** ** cumulative_block *)

Section Cumulative.
Context {RS : RandomState}.

Lemma weighted_sum_from_returned self size ms : forall acc v,
  Spec.weighted_sum_from self size acc ms = Ok v ->
  forallb (fun mu : mutation => Rs.seed_ok (fst mu)) ms = true /\
  (ms <> [] -> 0 < length (NoiseSource.noise self) \/ size = 0).
Proof.
  induction ms as [|[seed scale] ms IH]; intros acc v; cbn.
  - intros _. split; [reflexivity | congruence].
  - destruct (NoiseSource.block self size seed) as [b|] eqn:Hb; [|discriminate].
    cbn. intros H. destruct (block_returned _ _ _ Hb) as [Hs Hn].
    destruct (IH _ _ H) as [Hall _]. rewrite Hs, Hall. now split.
Qed.

Lemma weighted_sum_from_ok_any self size ms : forall acc,
  length acc = size ->
  0 < length (NoiseSource.noise self) \/ size = 0 ->
  forallb (fun mu : mutation => Rs.seed_ok (fst mu)) ms = true ->
  exists v, Spec.weighted_sum_from self size acc ms = Ok v /\ length v = size.
Proof.
  induction ms as [|[seed scale] ms IH]; intros acc Hacc Hn Hs; cbn.
  - now exists acc.
  - cbn in Hs. apply andb_prop in Hs. destruct Hs as [Hs1 Hs2].
    destruct (@block_ok_any RS self size seed Hs1 Hn) as [b [Hb Hlen]].
    rewrite Hb. cbn. apply IH; auto.
    rewrite zip_add_length, scale_length. lia.
Qed.

Lemma table_or_nothing self size :
  negb (length (NoiseSource.noise self) =? 0) || (size =? 0) = true <->
  (0 < length (NoiseSource.noise self) \/ size = 0).
Proof.
  destruct (Nat.eqb_spec (length (NoiseSource.noise self)) 0);
    destruct (Nat.eqb_spec size 0); cbn; split; intros H;
    try reflexivity; try discriminate; try lia; auto.
Qed.

Lemma drawable_spec self size (m : chain) :
  Program.drawable self size m = true <->
  ((0 < length (NoiseSource.noise self) \/ size = 0) /\
   forallb (fun mu : mutation => Rs.seed_ok (fst mu)) m = true).
Proof.
  unfold Program.drawable. split.
  - intros H. apply andb_prop in H. destruct H as [H1 H2].
    split; [now apply table_or_nothing | exact H2].
  - intros [H1 H2]. apply andb_true_intro.
    split; [now apply table_or_nothing | exact H2].
Qed.

Lemma np_sum_outcome self size (p : chain) :
  p <> [] ->
  match NoiseSource.np_sum self size p with
  | Ok v => length v = size /\ Program.drawable self size p = true
  | Raise e => e = ValueError /\ Program.drawable self size p = false
  end.
Proof.
  intros Hne. rewrite np_sum_weighted by assumption.
  destruct (Spec.weighted_sum self size p) as [v|e] eqn:H.
  - split.
    + eapply weighted_sum_from_length; [apply zeros_length | exact H].
    + destruct (weighted_sum_from_returned _ _ _ _ H) as [Hall Hn].
      apply drawable_spec. split; [exact (Hn Hne) | exact Hall].
  - split; [exact (weighted_sum_from_raises _ _ _ _ H)|].
    destruct (Program.drawable self size p) eqn:Hd; [|reflexivity].
    apply drawable_spec in Hd. destruct Hd as [Hn Hall].
    destruct (@weighted_sum_from_ok_any self size p (Np.zeros size))
      as [v [Hv _]]; [apply zeros_length | exact Hn | exact Hall |].
    unfold Spec.weighted_sum in H. congruence.
Qed.

Lemma block_outcome self size seed :
  match NoiseSource.block self size seed with
  | Ok v => length v = size /\
            Program.drawable self size [(seed, F32.zero)] = true
  | Raise e => e = ValueError /\
               Program.drawable self size [(seed, F32.zero)] = false
  end.
Proof.
  destruct (NoiseSource.block self size seed) as [v|e] eqn:H.
  - destruct (block_returned _ _ _ H) as [Hs Hn].
    split; [exact (block_length _ _ _ H)|].
    apply drawable_spec. cbn. now rewrite Hs.
  - split; [exact (block_raises _ _ _ H)|].
    destruct (Program.drawable self size [(seed, F32.zero)]) eqn:Hd;
      [|reflexivity].
    apply drawable_spec in Hd. destruct Hd as [Hn Hs]. cbn in Hs.
    rewrite andb_true_r in Hs.
    destruct (@block_ok_any RS self size seed Hs Hn) as [v [Hv _]]. congruence.
Qed.

Lemma drawable_snoc self size (p : chain) seed scale :
  Program.drawable self size (p ++ [(seed, scale)]) =
  Program.drawable self size p &&
  Program.drawable self size [(seed, F32.zero)].
Proof.
  unfold Program.drawable. rewrite forallb_app. cbn.
  rewrite !andb_true_r.
  destruct (negb (length (NoiseSource.noise self) =? 0) || (size =? 0));
    destruct (forallb _ p); destruct (Rs.seed_ok seed); reflexivity.
Qed.

Lemma cumulative_block_outcome_cases self size (m : chain) :
  Spec.consistent self size = true ->
  m <> [] ->
  match fst (NoiseSource.cumulative_block self size m) with
  | Ok v => length v = size /\ Program.drawable self size m = true
  | Raise e => e = ValueError /\ Program.drawable self size m = false
  end.
Proof.
  intros Hc Hne.
  destruct (exists_last Hne) as (p & [seed scale] & ->).
  rewrite drawable_snoc. pose proof (block_outcome self size seed) as Hb.
  destruct p as [|y p'].
  - cbn [app]. unfold NoiseSource.cumulative_block. cbn [last length Nat.eqb].
    destruct (NoiseSource.block self size seed) as [b|e]; cbn [fst].
    + destruct Hb as [Hl Hb]. rewrite Hb, scale_length.
      split; [exact Hl|]. rewrite andb_true_r.
      apply drawable_spec in Hb. apply drawable_spec. now destruct Hb.
    + destruct Hb as [He Hb]. rewrite Hb. split; [exact He | apply andb_false_r].
  - assert (Hp : y :: p' <> []) by discriminate.
    pose proof (np_sum_outcome self size Hp) as Hs.
    rewrite (cumulative_block_snoc self size seed scale Hp).
    destruct (NoiseSource.block self size seed) as [b|e]; cbn [fst].
    + destruct Hb as [Hl Hb]. rewrite Hb, andb_true_r.
      destruct (Dict.get (y :: p') (NoiseSource._cache self)) as [cached|] eqn:Hg.
      * rewrite (consistent_get _ _ _ Hc Hg) in Hs. destruct Hs as [Hlc Hs].
        cbn [fst]. rewrite np_add_same_length by (rewrite scale_length; lia).
        rewrite zip_add_length, scale_length. split; [lia | exact Hs].
      * destruct (NoiseSource.np_sum self size (y :: p')) as [q|e]; cbn [fst].
        -- destruct Hs as [Hlq Hs].
           rewrite np_add_same_length by (rewrite scale_length; lia).
           rewrite zip_add_length, scale_length. split; [lia | exact Hs].
        -- exact Hs.
    + destruct Hb as [He Hb]. rewrite Hb. split; [exact He | apply andb_false_r].
Qed.

(** With a consistent cache, a call on a chain that is not empty
    returns exactly when every seed of the chain, cached prefix
    included, is one the generator accepts and there is something to
    draw from: the table is not empty, or the size is 0.  It then
    returns [size] values.  Otherwise it raises [ValueError], and
    nothing else. *)
Theorem cumulative_block_outcome :
  forall (self : NoiseSource.t) (size : nat) (m : chain),
    Spec.consistent self size = true ->
    m <> [] ->
    match fst (NoiseSource.cumulative_block self size m) with
    | Ok v => length v = size /\ Program.drawable self size m = true
    | Raise e => e = ValueError /\ Program.drawable self size m = false
    end.
Proof.
  intros self size m. apply cumulative_block_outcome_cases.
Qed.

(** Asking twice is asking once: the second of two identical calls
    returns what the first returned (or raises what it raised) and
    leaves the object as the first left it. *)
Theorem cumulative_block_repeat :
  forall (self : NoiseSource.t) (size : nat) (m : chain),
    NoiseSource.cumulative_block
      (snd (NoiseSource.cumulative_block self size m)) size m =
    NoiseSource.cumulative_block self size m.
Proof.
  intros self size m.
  destruct m as [|x m'] using rev_ind; [reflexivity|]. clear IHm'.
  destruct m' as [|y p'].
  - now rewrite cumulative_block_short by (cbn; lia).
  - destruct x as [seed scale].
    assert (Hp : y :: p' <> []) by discriminate.
    rewrite (cumulative_block_snoc self size seed scale Hp).
    destruct (NoiseSource.block self size seed) as [b|e] eqn:Hb.
    + destruct (Dict.get (y :: p') (NoiseSource._cache self)) as [cached|] eqn:Hg.
      * cbn [snd]. rewrite (cumulative_block_snoc self size seed scale Hp).
        now rewrite Hb, Hg.
      * destruct (NoiseSource.np_sum self size (y :: p')) as [q|e] eqn:Hs.
        -- cbn [snd]. rewrite (cumulative_block_snoc _ size seed scale Hp).
           rewrite (block_table (NoiseSource.with_cache self
                      (Dict.set (y :: p') q (NoiseSource._cache self)))
                      self size seed eq_refl), Hb.
           cbn [NoiseSource._cache NoiseSource.with_cache].
           now rewrite get_set_same.
        -- cbn [snd]. rewrite (cumulative_block_snoc self size seed scale Hp).
           now rewrite Hb, Hg, Hs.
    + cbn [snd]. rewrite (cumulative_block_snoc self size seed scale Hp).
      now rewrite Hb.
Qed.

(** A call on two pairs or more that returns leaves its prefix in the
    cache, and from then on no call under that prefix, with whatever
    last pair and at whatever size, changes the object. *)
Theorem cumulative_block_caches_prefix :
  forall (self : NoiseSource.t) (size : nat) (prefix : chain)
         (last : mutation) (v : Np.vector),
    prefix <> [] ->
    fst (NoiseSource.cumulative_block self size (prefix ++ [last])) = Ok v ->
    let self' := snd (NoiseSource.cumulative_block self size (prefix ++ [last])) in
    (exists cached, Dict.get prefix (NoiseSource._cache self') = Some cached) /\
    forall size' last',
      snd (NoiseSource.cumulative_block self' size' (prefix ++ [last'])) = self'.
Proof.
  intros self size prefix [seed scale] v Hp Hv self'.
  assert (Hc : exists cached,
             Dict.get prefix (NoiseSource._cache self') = Some cached).
  { unfold self'. revert Hv.
    rewrite (cumulative_block_snoc self size seed scale Hp).
    destruct (NoiseSource.block self size seed) as [b|]; [|discriminate].
    destruct (Dict.get prefix (NoiseSource._cache self)) as [cached|] eqn:Hg.
    - intros _. cbn [snd]. eauto.
    - destruct (NoiseSource.np_sum self size prefix) as [q|]; [|discriminate].
      intros _. cbn [snd NoiseSource._cache NoiseSource.with_cache].
      rewrite get_set_same. eauto. }
  split; [exact Hc|].
  intros size' last'. apply cumulative_block_hit.
  rewrite removelast_last. destruct Hc as [cached ->]. discriminate.
Qed.

End Cumulative.

(** ** The cache as a dictionary *)

Lemma get_None_keys key d :
  Dict.get key d = None -> ~ In key (Dict.keys d).
Proof.
  induction d as [|[k v] d IH]; cbn; [tauto|].
  destruct (chain_eq_dec key k) as [|Hne]; [discriminate|].
  intros H [E|Hin]; [congruence | now apply IH].
Qed.

Lemma cached_values_app d e :
  Program.cached_values (d ++ e) =
  (Program.cached_values d + Program.cached_values e)%Z.
Proof.
  unfold Program.cached_values, Dict.values.
  induction d as [|[k v] d IH]; cbn [app map fold_right snd]; [lia|].
  rewrite IH. lia.
Qed.

Lemma cached_values_nonneg d : (0 <= Program.cached_values d)%Z.
Proof.
  unfold Program.cached_values, Dict.values.
  induction d as [|[k v] d IH]; cbn [map fold_right snd]; lia.
Qed.

(** [del d[key]] takes one entry away, the one under the key, and
    leaves the others as they are and where they are. *)
Lemma del_keys_In key d x :
  In x (Dict.keys (Dict.del key d)) -> In x (Dict.keys d).
Proof.
  induction d as [|[k v] d IH]; cbn; [tauto|].
  destruct (chain_eq_dec key k); cbn; [tauto|].
  intros [H|H]; [now left | right; now apply IH].
Qed.

Lemma del_keys_NoDup key d :
  NoDup (Dict.keys d) -> NoDup (Dict.keys (Dict.del key d)).
Proof.
  induction d as [|[k v] d IH]; cbn; [auto|].
  intros H. inversion H as [|? ? Hk Hd]; subst.
  destruct (chain_eq_dec key k); cbn; [exact Hd|].
  constructor; [|now apply IH].
  intros Hin. apply Hk. now apply del_keys_In in Hin.
Qed.

Lemma del_key_gone key d :
  NoDup (Dict.keys d) -> ~ In key (Dict.keys (Dict.del key d)).
Proof.
  induction d as [|[k v] d IH]; cbn; [tauto|].
  intros H. inversion H as [|? ? Hk Hd]; subst.
  destruct (chain_eq_dec key k) as [->|Hne]; cbn; [exact Hk|].
  intros [E|Hin]; [congruence | now apply IH].
Qed.

Lemma del_present key d :
  In key (Dict.keys d) ->
  exists v,
    In (key, v) d /\
    S (length (Dict.del key d)) = length d /\
    Program.cached_values d =
    (Program.cached_values (Dict.del key d) + Z.of_nat (length v))%Z.
Proof.
  induction d as [|[k v] d IH]; cbn [Dict.keys map fst Dict.del]; [intros []|].
  destruct (chain_eq_dec key k) as [->|Hne].
  - intros _. exists v. split; [now left|]. split; [reflexivity|].
    unfold Program.cached_values, Dict.values. cbn. lia.
  - intros [E|Hin]; [congruence|].
    destruct (IH Hin) as (w & Hw & Hl & Hc). exists w.
    split; [now right|]. split; [cbn; lia|].
    unfold Program.cached_values, Dict.values in *. cbn. lia.
Qed.

(** Under Python 2 the first key listed is a key of the dictionary,
    whichever the hash table makes it. *)
Lemma first_key_python2 slot d :
  match Dict.first_key (Python2 slot) d with
  | Ok k => In k (Dict.keys d)
  | Raise e => e = IndexError /\ d = []
  end.
Proof.
  unfold Dict.first_key. destruct d as [|[k v] d]; cbn [Dict.keys map fst].
  - now split.
  - apply nth_In. apply Nat.mod_upper_bound. discriminate.
Qed.

Lemma same_scale_refl x : Spec.same_scale x x = true.
Proof. unfold Spec.same_scale. now destruct (F32.eq_dec x x). Qed.

Lemma same_key_refl (k : chain) : Spec.same_key k k = true.
Proof.
  induction k as [|[seed scale] k IH]; [reflexivity|].
  cbn [Spec.same_key]. now rewrite Z.eqb_refl, same_scale_refl, IH.
Qed.

(** A key that no cached key could be taken for is not found. *)
Lemma uncached_get (key : chain) (d : Dict.dict) :
  Spec.uncached key d = true -> Dict.get key d = None.
Proof.
  unfold Spec.uncached, Dict.keys.
  induction d as [|[k v] d IH]; [reflexivity|].
  cbn [map forallb fst Dict.get]. intros H.
  apply andb_prop in H. destruct H as [Hk Hd].
  destruct (chain_eq_dec key k) as [->|_]; [|now apply IH].
  now rewrite same_key_refl in Hk.
Qed.

Section CacheInvariants.
Context {RS : RandomState}.

(** One turn of the eviction loop: it stops, it raises, or it deletes
    one key. *)
Lemma evict_step_cases py self :
  NoiseSource.evict_step py self = None \/
  (exists e, NoiseSource.evict_step py self = Some (Raise e)) \/
  (exists k,
      NoiseSource.evict_step py self =
      Some (Ok (NoiseSource.with_cache self
                  (Dict.del k (NoiseSource._cache self))))).
Proof.
  unfold NoiseSource.evict_step.
  destruct (NoiseSource._cache_size self >? NoiseSource._max_cache self)%Z;
    [|now left].
  right. destruct (Dict.first_key py (NoiseSource._cache self)) as [k|e].
  - right. now exists k.
  - left. now exists e.
Qed.

(** What eviction leaves was there before, and no key twice. *)
Lemma evict_loop_keys py fuel : forall self r self',
  NoiseSource.evict_loop py fuel self = Some (r, self') ->
  (forall x, In x (Dict.keys (NoiseSource._cache self')) ->
             In x (Dict.keys (NoiseSource._cache self))) /\
  (NoDup (Dict.keys (NoiseSource._cache self)) ->
   NoDup (Dict.keys (NoiseSource._cache self'))).
Proof.
  induction fuel as [|fuel IH]; intros self r self';
    cbn [NoiseSource.evict_loop];
    destruct (evict_step_cases py self) as [E|[[e E]|[k E]]];
    rewrite E;
    try (intros [= _ <-]; now split);
    try discriminate.
  intros H. destruct (IH _ _ _ H) as [Hin Hnd]. cbn in Hin, Hnd. split.
  - intros x Hx. apply Hin in Hx. now apply del_keys_In in Hx.
  - intros Hd. apply Hnd. now apply del_keys_NoDup.
Qed.

Lemma after_call_keys self c :
  NoDup (Dict.keys (NoiseSource._cache self)) ->
  Forall (fun k : chain => k <> []) (Dict.keys (NoiseSource._cache self)) ->
  NoDup (Dict.keys (NoiseSource._cache (Spec.after_call self c))) /\
  Forall (fun k : chain => k <> [])
         (Dict.keys (NoiseSource._cache (Spec.after_call self c))).
Proof.
  intros Hnd Hne. destruct c as [n seed | n m | py]; cbn [Spec.after_call].
  - now split.
  - destruct (cumulative_block_cache self n m)
      as [E|(Hlen & Hget & q & _ & E)]; rewrite E; [now split|].
    cbn [NoiseSource._cache NoiseSource.with_cache].
    unfold Dict.keys in *. rewrite map_app. cbn [map fst]. split.
    + apply NoDup_app; [exact Hnd | repeat constructor; intros [] | ].
      intros key Hin [<-|[]]. exact (get_None_keys _ _ Hget Hin).
    + apply Forall_app. split; [exact Hne|].
      constructor; [|constructor].
      destruct m as [|x [|y m']]; cbn in Hlen; try lia. discriminate.
  - unfold NoiseSource._evict_cache.
    destruct (NoiseSource.evict_loop _ _ _) as [[r self']|] eqn:E; [|now split].
    destruct (evict_loop_keys _ _ _ E) as [Hin Hd].
    split; [now apply Hd|].
    rewrite Forall_forall in *. intros x Hx. now apply Hne, Hin.
Qed.

Lemma after_calls_keys cs : forall self,
  NoDup (Dict.keys (NoiseSource._cache self)) ->
  Forall (fun k : chain => k <> []) (Dict.keys (NoiseSource._cache self)) ->
  NoDup (Dict.keys (NoiseSource._cache (Spec.after_calls self cs))) /\
  Forall (fun k : chain => k <> [])
         (Dict.keys (NoiseSource._cache (Spec.after_calls self cs))).
Proof.
  induction cs as [|c cs IH]; intros self Hnd Hne; [now split|].
  change (Spec.after_calls self (c :: cs))
    with (Spec.after_calls (Spec.after_call self c) cs).
  destruct (after_call_keys self c Hnd Hne) as [H1 H2]. now apply IH.
Qed.

Lemma cache_keys_distinct_aux self history :
  NoiseSource._cache self = [] ->
  NoDup (Dict.keys (NoiseSource._cache (Spec.after_calls self history))) /\
  Forall (fun k : chain => k <> [])
         (Dict.keys (NoiseSource._cache (Spec.after_calls self history))).
Proof.
  intros H. apply after_calls_keys; rewrite H; constructor.
Qed.

(** Whatever is called on an object that starts with an empty cache,
    in whatever order and at whatever sizes, no key is ever cached
    twice and no cached key is the empty chain. *)
Theorem cache_keys_distinct :
  forall (self : NoiseSource.t) (history : list Spec.call),
    NoiseSource._cache self = [] ->
    NoDup (Dict.keys (NoiseSource._cache (Spec.after_calls self history))) /\
    Forall (fun k : chain => k <> [])
           (Dict.keys (NoiseSource._cache (Spec.after_calls self history))).
Proof.
  intros self history. apply cache_keys_distinct_aux.
Qed.

(** As long as every [cumulative_block] call is made at one size, every
    cached vector has that many values and is the direct weighted sum of
    its key over the table. *)
Theorem cache_holds_prefix_sums :
  forall (self : NoiseSource.t) (size : nat) (history : list Spec.call)
         (key : chain) (value : Np.vector),
    NoiseSource._cache self = [] ->
    forallb (Spec.at_size size) history = true ->
    Dict.get key (NoiseSource._cache (Spec.after_calls self history)) =
      Some value ->
    length value = size /\ Spec.weighted_sum self size key = Ok value.
Proof.
  intros self size history key value He Hh Hg.
  assert (Hk : key <> []).
  { destruct (cache_keys_distinct_aux self history He) as [_ Hne].
    rewrite Forall_forall in Hne. apply Hne.
    apply get_In in Hg. unfold Dict.keys.
    change key with (fst (key, value)). now apply in_map. }
  pose proof (consistent_after_calls size history self
                (consistent_empty self size He) Hh) as Hc.
  pose proof (consistent_get _ _ _ Hc Hg) as Hs.
  rewrite (np_sum_table _ self size key (after_calls_table history self)) in Hs.
  split; [exact (np_sum_length _ _ Hk Hs)|].
  now rewrite <- np_sum_weighted.
Qed.

(** The count of cached values after a call.  It is up by exactly
    [size] when the chain has two pairs or more, no cached key could be
    taken for its prefix and the call returned.  It is unchanged when
    the chain is shorter, when the prefix, with no NaN among its
    scales, is found in the cache, and when the call raised.
    [cumulative_block] never looks at the budget.  (Nothing is said of
    a prefix that differs from a cached key in the sign of a zero scale
    only, or that holds a NaN: there the lookup of Python and the
    lookup on the data can part.) *)
Theorem cache_size_after_call :
  forall (self : NoiseSource.t) (size : nat) (m : chain),
    let call := NoiseSource.cumulative_block self size m in
    ((2 <= length m /\
      Spec.uncached (removelast m) (NoiseSource._cache self) = true /\
      is_ok (fst call) = true) ->
     NoiseSource._cache_size (snd call) =
       (NoiseSource._cache_size self + Z.of_nat size)%Z) /\
    ((length m <= 1 \/
      (Spec.no_nan (removelast m) = true /\
       Dict.get (removelast m) (NoiseSource._cache self) <> None) \/
      is_ok (fst call) = false) ->
     NoiseSource._cache_size (snd call) = NoiseSource._cache_size self).
Proof.
  intros self size m call. unfold call. clear call.
  destruct m as [|x m'] using rev_ind.
  { split; [cbn; intros [H _]; lia | reflexivity]. }
  clear IHm'. destruct x as [seed scale]. destruct m' as [|y p'].
  { split; [cbn; intros [H _]; lia|].
    intros _. now rewrite cumulative_block_short by (cbn; lia). }
  assert (Hp : y :: p' <> []) by discriminate.
  rewrite removelast_last.
  rewrite (cumulative_block_snoc self size seed scale Hp).
  destruct (NoiseSource.block self size seed) as [b|e] eqn:Hb.
  2:{ split; [intros (_ & _ & H); discriminate H | reflexivity]. }
  destruct (Dict.get (y :: p') (NoiseSource._cache self)) as [cached|] eqn:Hg.
  { split; [|reflexivity].
    intros (_ & H & _). apply uncached_get in H. congruence. }
  destruct (NoiseSource.np_sum self size (y :: p')) as [q|e] eqn:Hs.
  2:{ split; [intros (_ & _ & H); discriminate H | reflexivity]. }
  pose proof (np_sum_length _ _ Hp Hs) as Hq.
  assert (Hadd : Np.add q (Np.scale b scale) =
                 Ok (Np.zip_add q (Np.scale b scale))).
  { apply np_add_same_length.
    rewrite scale_length, (block_length _ _ _ Hb). exact Hq. }
  rewrite Hadd. cbn [fst snd is_ok]. split.
  - intros _. rewrite (set_absent _ q _ Hg).
    change (NoiseSource._cache_size
              (NoiseSource.with_cache self
                 (NoiseSource._cache self ++ [(y :: p', q)])))
      with (Program.cached_values
              (NoiseSource._cache self ++ [(y :: p', q)])).
    rewrite cached_values_app.
    change (Program.cached_values (NoiseSource._cache self))
      with (NoiseSource._cache_size self).
    unfold Program.cached_values at 1. cbn. rewrite Hq. lia.
  - intros [H|[[_ H]|H]]; [rewrite length_app in H; cbn in H; lia
                          | congruence | discriminate H].
Qed.

End CacheInvariants.

(** ** Eviction under Python 2 *)

Section EvictionPython2.
Context {RS : RandomState}.

Lemma evict_step_python2 slot table budget d :
  match NoiseSource.evict_step (Python2 slot)
          {| NoiseSource.noise := table; NoiseSource._cache := d;
             NoiseSource._max_cache := budget |} with
  | None => (Program.cached_values d <= budget)%Z
  | Some (Raise e) =>
      e = IndexError /\ d = [] /\ (Program.cached_values d > budget)%Z
  | Some (Ok self') =>
      (Program.cached_values d > budget)%Z /\
      exists k,
        In k (Dict.keys d) /\
        self' = {| NoiseSource.noise := table;
                   NoiseSource._cache := Dict.del k d;
                   NoiseSource._max_cache := budget |}
  end.
Proof.
  unfold NoiseSource.evict_step.
  change (NoiseSource._cache_size
            {| NoiseSource.noise := table; NoiseSource._cache := d;
               NoiseSource._max_cache := budget |})
    with (Program.cached_values d).
  cbn [NoiseSource._max_cache NoiseSource._cache].
  destruct (Program.cached_values d >? budget)%Z eqn:E.
  - rewrite Z.gtb_ltb in E. apply Z.ltb_lt in E.
    pose proof (first_key_python2 slot d) as Hk.
    destruct (Dict.first_key (Python2 slot) d) as [k|e]; cbn [bind].
    + split; [lia|]. exists k. now split.
    + destruct Hk as [-> ->]. repeat split. lia.
  - rewrite Z.gtb_ltb in E. now apply Z.ltb_ge in E.
Qed.

(** With a budget that is not negative the loop ends without raising,
    within budget, and with nothing taken that did not have to be. *)
Lemma evict_loop_python2 slot table budget : forall fuel (d : Dict.dict),
  (0 <= budget)%Z ->
  length d <= fuel ->
  exists kept,
    NoiseSource.evict_loop (Python2 slot) fuel
      {| NoiseSource.noise := table; NoiseSource._cache := d;
         NoiseSource._max_cache := budget |} =
    Some (Ok tt,
          {| NoiseSource.noise := table; NoiseSource._cache := kept;
             NoiseSource._max_cache := budget |}) /\
    (forall x, In x kept -> In x d) /\
    (Program.cached_values kept <= budget)%Z /\
    (kept = d \/
     exists entry,
       In entry d /\
       (Program.cached_values kept + Z.of_nat (length (snd entry)) > budget)%Z).
Proof.
  induction fuel as [|fuel IH]; intros d Hb Hf; cbn [NoiseSource.evict_loop];
    pose proof (evict_step_python2 slot table budget d) as Hstep;
    destruct (NoiseSource.evict_step _ _) as [[self'|e]|].
  - destruct Hstep as [_ (k & Hk & _)]. destruct d; [destruct Hk | cbn in Hf; lia].
  - destruct Hstep as (_ & -> & Hgt). cbn in Hgt. lia.
  - exists d. repeat split; auto.
  - destruct Hstep as [Hgt (k & Hk & ->)].
    destruct (del_present _ _ Hk) as (v & Hv & Hl & Hc).
    destruct (IH (Dict.del k d) Hb) as (kept & Hrun & Hin & Hsize & Hmin);
      [lia|].
    exists kept. split; [exact Hrun|]. split.
    { intros x Hx. apply Hin in Hx. now apply del_In in Hx. }
    split; [exact Hsize|]. right.
    destruct Hmin as [->|(entry & He & Hgt')].
    + exists (k, v). split; [exact Hv | cbn; lia].
    + exists entry. split; [now apply del_In in He | exact Hgt'].
  - destruct Hstep as (_ & -> & Hgt). cbn in Hgt. lia.
  - exists d. repeat split; auto.
Qed.

(** Under Python 2, with a budget that is not negative, [_evict_cache]
    ends without raising and leaves a cache within budget whose entries
    were all there before. *)
Lemma evict_cache_python2 slot self :
  (0 <= NoiseSource._max_cache self)%Z ->
  exists self',
    NoiseSource._evict_cache (Python2 slot) self = Some (Ok tt, self') /\
    (forall x, In x (NoiseSource._cache self') ->
               In x (NoiseSource._cache self)) /\
    NoiseSource.noise self' = NoiseSource.noise self /\
    (NoiseSource._cache_size self' <= NoiseSource._max_cache self)%Z.
Proof.
  intros Hb. destruct self as [table d budget]. cbn in Hb.
  destruct (@evict_loop_python2 slot table budget (length d) d Hb (le_n _))
    as (kept & Hrun & Hin & Hsize & _).
  eexists. split; [exact Hrun|]. cbn. auto.
Qed.

(** The same over a dictionary, whose keys are distinct: what went had
    to go. *)
Lemma evict_loop_python2_exact slot table budget :
  forall fuel (d : Dict.dict),
  (0 <= budget)%Z ->
  NoDup (Dict.keys d) ->
  length d <= fuel ->
  exists kept,
    NoiseSource.evict_loop (Python2 slot) fuel
      {| NoiseSource.noise := table; NoiseSource._cache := d;
         NoiseSource._max_cache := budget |} =
    Some (Ok tt,
          {| NoiseSource.noise := table; NoiseSource._cache := kept;
             NoiseSource._max_cache := budget |}) /\
    (forall x, In x kept -> In x d) /\
    (Program.cached_values kept <= budget)%Z /\
    (kept = d \/
     exists entry,
       In entry d /\ ~ In entry kept /\
       (Program.cached_values kept + Z.of_nat (length (snd entry)) > budget)%Z).
Proof.
  induction fuel as [|fuel IH]; intros d Hb Hnd Hf;
    cbn [NoiseSource.evict_loop];
    pose proof (evict_step_python2 slot table budget d) as Hstep;
    destruct (NoiseSource.evict_step _ _) as [[self'|e]|].
  - destruct Hstep as [_ (k & Hk & _)].
    destruct d; [destruct Hk | cbn in Hf; lia].
  - destruct Hstep as (_ & -> & Hgt). cbn in Hgt. lia.
  - exists d. repeat split; auto.
  - destruct Hstep as [Hgt (k & Hk & ->)].
    destruct (del_present _ _ Hk) as (v & Hv & Hl & Hc).
    destruct (IH (Dict.del k d) Hb (@del_keys_NoDup k d Hnd))
      as (kept & Hrun & Hin & Hsize & Hmin); [lia|].
    exists kept. split; [exact Hrun|]. split.
    { intros x Hx. apply Hin in Hx. now apply del_In in Hx. }
    split; [exact Hsize|]. right.
    destruct Hmin as [->|(entry & He & Hout & Hgt')].
    + exists (k, v). split; [exact Hv|]. split; [|cbn; lia].
      intros Hx. apply (@del_key_gone k d Hnd).
      change k with (fst (k, v)). now apply in_map.
    + exists entry. split; [now apply del_In in He|]. now split.
  - destruct Hstep as (_ & -> & Hgt). cbn in Hgt. lia.
  - exists d. repeat split; auto.
Qed.

(** Under Python 2, whichever key the hash table lists first, with a
    budget that is not negative [_evict_cache] ends without raising.
    It leaves the table and the budget as they were and a cache within
    budget whose entries were all there before, unchanged; and it takes
    none it did not have to: either nothing went, or what is left would
    be over budget with one of the entries that went.  (The cache is a
    dictionary: no key twice.) *)
Theorem evict_cache_python2_exact :
  forall (slot : list chain -> nat) (self : NoiseSource.t),
    (0 <= NoiseSource._max_cache self)%Z ->
    NoDup (Dict.keys (NoiseSource._cache self)) ->
    exists self',
      NoiseSource._evict_cache (Python2 slot) self = Some (Ok tt, self') /\
      NoiseSource.noise self' = NoiseSource.noise self /\
      NoiseSource._max_cache self' = NoiseSource._max_cache self /\
      (forall x, In x (NoiseSource._cache self') ->
                 In x (NoiseSource._cache self)) /\
      (NoiseSource._cache_size self' <= NoiseSource._max_cache self)%Z /\
      (NoiseSource._cache self' = NoiseSource._cache self \/
       exists entry,
         In entry (NoiseSource._cache self) /\
         ~ In entry (NoiseSource._cache self') /\
         (NoiseSource._cache_size self' + Z.of_nat (length (snd entry)) >
          NoiseSource._max_cache self)%Z).
Proof.
  intros slot [table d budget] Hb Hnd. cbn in Hb, Hnd.
  destruct (@evict_loop_python2_exact slot table budget (length d) d
              Hb Hnd (le_n _))
    as (kept & Hrun & Hin & Hsize & Hmin).
  eexists. split; [exact Hrun|]. cbn. repeat split; auto.
Qed.

Lemma evict_loop_python2_negative slot table budget :
  forall fuel (d : Dict.dict),
  (budget < 0)%Z ->
  length d <= fuel ->
  NoiseSource.evict_loop (Python2 slot) fuel
    {| NoiseSource.noise := table; NoiseSource._cache := d;
       NoiseSource._max_cache := budget |} =
  Some (Raise IndexError,
        {| NoiseSource.noise := table; NoiseSource._cache := [];
           NoiseSource._max_cache := budget |}).
Proof.
  induction fuel as [|fuel IH]; intros d Hb Hf; cbn [NoiseSource.evict_loop];
    pose proof (evict_step_python2 slot table budget d) as Hstep;
    pose proof (cached_values_nonneg d) as Hpos;
    destruct (NoiseSource.evict_step _ _) as [[self'|e]|]; try lia.
  - destruct Hstep as [_ (k & Hk & _)]. destruct d; [destruct Hk | cbn in Hf; lia].
  - now destruct Hstep as (-> & -> & _).
  - destruct Hstep as [_ (k & Hk & ->)].
    destruct (del_present _ _ Hk) as (v & _ & Hl & _).
    apply IH; [exact Hb | lia].
  - now destruct Hstep as (-> & -> & _).
Qed.

(** The budget is never validated.  With a negative one, under
    Python 2, [_evict_cache] empties the cache and then raises
    [IndexError], looking for a first key in an empty dictionary. *)
Theorem evict_cache_python2_negative_budget :
  forall (slot : list chain -> nat) (self : NoiseSource.t),
    (NoiseSource._max_cache self < 0)%Z ->
    NoiseSource._evict_cache (Python2 slot) self =
    Some (Raise IndexError, NoiseSource.with_cache self []).
Proof.
  intros slot [table d budget] Hb. cbn in Hb.
  exact (@evict_loop_python2_negative slot table budget (length d) d Hb (le_n _)).
Qed.

End EvictionPython2.

(** ** Extending a chain *)

Section Extending.
Context {RS : RandomState}.

(** On two pairs or more, with a consistent cache, the call is the
    direct weighted sum, datum for datum. *)
Lemma cumulative_block_long self size (p : chain) seed scale :
  Spec.consistent self size = true ->
  p <> [] ->
  fst (NoiseSource.cumulative_block self size (p ++ [(seed, scale)])) =
  Spec.weighted_sum self size (p ++ [(seed, scale)]).
Proof.
  intros Hc Hne.
  rewrite (cumulative_block_snoc self size seed scale Hne).
  unfold Spec.weighted_sum. rewrite weighted_sum_from_app.
  fold (Spec.weighted_sum self size p).
  rewrite <- (np_sum_weighted self size Hne).
  destruct (NoiseSource.block self size seed) as [b|e] eqn:Hb.
  - destruct (Dict.get p (NoiseSource._cache self)) as [cached|] eqn:Hg.
    + pose proof (consistent_get _ _ _ Hc Hg) as Hp. rewrite Hp. cbn.
      apply np_add_same_length. rewrite scale_length, (block_length _ _ _ Hb).
      exact (np_sum_length _ _ Hne Hp).
    + destruct (NoiseSource.np_sum self size p) as [q|e] eqn:Hp;
        cbn; [|reflexivity].
      apply np_add_same_length. rewrite scale_length, (block_length _ _ _ Hb).
      exact (np_sum_length _ _ Hne Hp).
  - apply block_raises in Hb. subst e.
    destruct (NoiseSource.np_sum self size p) as [q|e] eqn:Hp;
      cbn; [reflexivity|].
    rewrite np_sum_weighted in Hp by assumption.
    apply weighted_sum_from_raises in Hp. now subst e.
Qed.

(** Appending one pair to a chain of two pairs or more adds one scaled
    block to what the chain gave: [cumulative_block(size, p + [(seed,
    scale)])] is [cumulative_block(size, p) + block(size, seed) * scale],
    datum for datum, and raises when either part does. *)
Theorem cumulative_block_extend :
  forall (self : NoiseSource.t) (size : nat) (p : chain)
         (seed : Z) (scale : float32),
    Spec.consistent self size = true ->
    2 <= length p ->
    fst (NoiseSource.cumulative_block self size (p ++ [(seed, scale)])) =
    (v <- fst (NoiseSource.cumulative_block self size p) ;;
     b <- NoiseSource.block self size seed ;;
     Np.add v (Np.scale b scale)).
Proof.
  intros self size p seed scale Hc Hlen.
  assert (Hne : p <> []) by (destruct p; [cbn in Hlen; lia | discriminate]).
  rewrite (cumulative_block_long self size seed scale Hc Hne).
  destruct (exists_last Hne) as (p' & [seed' scale'] & ->).
  assert (Hne' : p' <> []).
  { destruct p'; [cbn in Hlen; lia | discriminate]. }
  rewrite (cumulative_block_long self size seed' scale' Hc Hne').
  unfold Spec.weighted_sum at 1. rewrite weighted_sum_from_app.
  fold (Spec.weighted_sum self size (p' ++ [(seed', scale')])).
  destruct (Spec.weighted_sum self size (p' ++ [(seed', scale')]))
    as [v|e] eqn:Hv; cbn [bind]; [|reflexivity].
  destruct (NoiseSource.block self size seed) as [b|e] eqn:Hb;
    cbn [bind]; [|reflexivity].
  symmetry. apply np_add_same_length.
  rewrite scale_length, (block_length _ _ _ Hb).
  eapply weighted_sum_from_length; [apply zeros_length | exact Hv].
Qed.

End Extending.

Section Seeds.
Context {RS : RandomState}.

(** ** noise_seeds *)

(** [noise_seeds] refuses a negative count with [ValueError]; otherwise
    it returns exactly that many seeds, each in [0, 2^32), so that
    [block] accepts every one of them on any table that is not empty. *)
Theorem noise_seeds_accepted :
  forall (GG : GlobalGenerator) (state : global_state) (num_seeds : Z),
    ((num_seeds < 0)%Z ->
     Program.noise_seeds state num_seeds = Raise ValueError) /\
    ((0 <= num_seeds)%Z ->
     exists seeds,
       Program.noise_seeds state num_seeds = Ok seeds /\
       Z.of_nat (length seeds) = num_seeds /\
       Forall (fun seed => Rs.seed_ok seed = true) seeds /\
       forall (self : NoiseSource.t) (size : nat),
         0 < length (NoiseSource.noise self) ->
         Forall (fun seed =>
                   exists v, NoiseSource.block self size seed = Ok v /\
                             length v = size) seeds).
Proof.
  intros GG state n. unfold Program.noise_seeds. split; intros Hn.
  - now rewrite (proj2 (Z.ltb_lt _ _) Hn).
  - rewrite (proj2 (Z.ltb_ge _ _) Hn).
    assert (Hpos : (0 < 2 ^ 32)%Z) by reflexivity.
    eexists. split; [reflexivity|].
    assert (Hok : Forall (fun seed => Rs.seed_ok seed = true)
                    (global_randint state (2 ^ 32) (Z.to_nat n))).
    { eapply Forall_impl; [|exact (global_randint_range state (Z.to_nat n) Hpos)].
      intros x Hx. cbv beta in Hx. unfold Rs.seed_ok.
      apply andb_true_intro. split; [apply Z.leb_le | apply Z.ltb_lt]; lia. }
    split; [rewrite global_randint_length; lia|].
    split; [exact Hok|].
    intros self size Ht. eapply Forall_impl; [|exact Hok].
    intros seed Hs. exact (block_ok self size seed Hs Ht).
Qed.

End Seeds.

(** ** Entering the scope *)

Section ScopeEntry.
Context {RS : RandomState}.

Lemma enter_returns_cases self sess :
  Spec.attached self sess ->
  (is_ok (fst (fst (NoiseAdder.__enter__ self sess))) = true <->
   (NoiseAdder._variables self = [] /\
    is_ok (fst (NoiseSource.cumulative_block (NoiseAdder._noise self) 0
                  (NoiseAdder.seeds_arg self))) = true)) /\
  snd (NoiseAdder.__enter__ self sess) = sess.
Proof.
  intros Hatt.
  destruct (NoiseAdder._variables self) as [|v vs] eqn:Hv.
  - destruct (attached_nothing Hatt Hv) as [-> Hp].
    unfold NoiseAdder.__enter__. rewrite Hv, total_size_empty.
    destruct (NoiseSource.cumulative_block _ _ _) as [[noise|e] ns].
    + cbn [NoiseAdder.add_noise].
      rewrite set_values_nothing by exact Hp. cbn. tauto.
    + cbn. split; [|reflexivity].
      split; [discriminate | intros [_ H]; discriminate H].
  - rewrite enter_over_variables by (rewrite Hv; discriminate).
    cbn. split; [|reflexivity].
    split; [discriminate | intros [H _]; discriminate H].
Qed.

Lemma enter_without_seeds_aux self sess :
  Spec.attached self sess ->
  NoiseAdder._variables self = [] ->
  NoiseAdder._seeds self = None ->
  NoiseAdder.__enter__ self sess =
    (Ok tt, NoiseAdder.with_old_vals self [], sess).
Proof.
  intros Hatt Hv Hs.
  destruct (attached_nothing Hatt Hv) as [-> Hp].
  destruct self as [vars ns phs seeds old]. cbn in Hv, Hs, Hp. subst.
  reflexivity.
Qed.

(** [__enter__] returns for an adder of no variable whose noise, of
    size 0, can be computed, and for no other adder: over one variable
    or more line 80 raises.  Returning or raising, it leaves the
    session as it found it. *)
Theorem enter_returns_iff :
  forall (self : NoiseAdder.t) (sess : Tf.session),
    Spec.attached self sess ->
    (is_ok (fst (fst (NoiseAdder.__enter__ self sess))) = true <->
     (NoiseAdder._variables self = [] /\
      is_ok (fst (NoiseSource.cumulative_block (NoiseAdder._noise self) 0
                    (NoiseAdder.seeds_arg self))) = true)) /\
    snd (NoiseAdder.__enter__ self sess) = sess.
Proof.
  intros self sess. apply enter_returns_cases.
Qed.

(** With no chain set ([seed] was never called) and no variable,
    [__enter__] returns whatever the noise source: [None] is as false
    as the empty chain, the noise is the empty vector, the noise source
    is not touched and the old values kept are the empty list. *)
Theorem enter_without_seeds :
  forall (self : NoiseAdder.t) (sess : Tf.session),
    Spec.attached self sess ->
    NoiseAdder._variables self = [] ->
    NoiseAdder._seeds self = None ->
    NoiseAdder.__enter__ self sess =
      (Ok tt, NoiseAdder.with_old_vals self [], sess).
Proof.
  intros self sess. apply enter_without_seeds_aux.
Qed.

End ScopeEntry.

(** ** One prefix at two sizes *)

(** An array plus an array of one element has the length of the
    first. *)
Lemma np_add_broadcast_one a b :
  length b = 1 -> exists v, Np.add a b = Ok v /\ length v = length a.
Proof.
  intros Hb. unfold Np.add. rewrite Hb.
  destruct (Nat.eqb_spec (length a) 1) as [Ha|Ha].
  - eexists. split; [reflexivity|]. rewrite zip_add_length. lia.
  - cbn. eexists. split; [reflexivity|]. apply length_map.
Qed.

Section TwoSizes.
Context {RS : RandomState}.

(** The cache key is the prefix, without the size.  After a call at
    size [n1] that cached the sum of its prefix, the same chain at size
    1 finds that sum and returns [n1] values. *)
Lemma stale_prefix_length self n1 m :
  2 <= length m ->
  NoiseSource.noise self <> [] ->
  Spec.uncached (removelast m) (NoiseSource._cache self) = true ->
  is_ok (fst (NoiseSource.cumulative_block self n1 m)) = true ->
  exists v,
    fst (NoiseSource.cumulative_block
           (snd (NoiseSource.cumulative_block self n1 m)) 1 m) = Ok v /\
    length v = n1.
Proof.
  intros Hlen Ht Hu.
  destruct m as [|[seed scale] p _] using rev_ind; [cbn in Hlen; lia|].
  assert (Hp : p <> []).
  { intros ->. cbn in Hlen. lia. }
  rewrite removelast_last in Hu. apply uncached_get in Hu.
  rewrite (cumulative_block_snoc self n1 seed scale Hp), Hu.
  destruct (NoiseSource.block self n1 seed) as [b|e] eqn:Hb; [|discriminate].
  destruct (NoiseSource.np_sum self n1 p) as [q|e] eqn:Hq; [|discriminate].
  cbn [fst snd]. intros _.
  set (self1 := NoiseSource.with_cache self
                  (Dict.set p q (NoiseSource._cache self))).
  destruct (block_returned _ _ _ Hb) as [Hs _].
  assert (Hn : 0 < length (NoiseSource.noise self1)).
  { cbn. destruct (NoiseSource.noise self); [congruence | cbn; lia]. }
  destruct (block_ok self1 1 seed Hs Hn) as [b1 [Hb1 Hl1]].
  rewrite (cumulative_block_snoc self1 1 seed scale Hp), Hb1.
  cbn [self1 NoiseSource.with_cache NoiseSource._cache].
  rewrite get_set_same. cbn [fst].
  destruct (@np_add_broadcast_one q (Np.scale b1 scale)) as [v [Hv Hl]].
  { now rewrite scale_length. }
  exists v. split; [exact Hv|].
  rewrite Hl. exact (np_sum_length _ _ Hp Hq).
Qed.

(** C2.  The call is not the weighted sum for every size and chain: the
    cache key is the prefix without the size.  After a call at a size
    other than 1 that cached the sum of its prefix, the same chain at
    size 1 returns that many values: the cached sum, with the one-value
    last block added to each.  The weighted sum of the blocks of size 1
    has one value, and the two agree in no reading.  (The scales of the
    prefix are no NaN, so that Python finds the key again as it is
    found here.) *)
Theorem stale_prefix_wrong_sum :
  forall (self : NoiseSource.t) (n1 : nat) (m : chain),
    2 <= length m ->
    n1 <> 1 ->
    NoiseSource.noise self <> [] ->
    Spec.uncached (removelast m) (NoiseSource._cache self) = true ->
    Spec.no_nan (removelast m) = true ->
    is_ok (fst (NoiseSource.cumulative_block self n1 m)) = true ->
    ~ Spec.agree
        (fst (NoiseSource.cumulative_block
                (snd (NoiseSource.cumulative_block self n1 m)) 1 m))
        (Spec.weighted_sum
           (snd (NoiseSource.cumulative_block self n1 m)) 1 m).
Proof.
  intros self n1 m Hlen Hn1 Ht Hu _ Hok.
  destruct (stale_prefix_length self n1 m Hlen Ht Hu Hok) as [v [-> Hv]].
  destruct (Spec.weighted_sum _ 1 m) as [w|e] eqn:Hw; cbn; [|tauto].
  intros H. apply Forall2_length in H.
  apply weighted_sum_from_length in Hw; [|apply zeros_length].
  lia.
Qed.

(** C5.  A prefix asked for at two sizes: after a call at size [n1]
    that cached the sum of its prefix, the same chain at size 1 raises
    nothing and returns [n1] values, not the one asked for.  (The
    scales of the prefix are no NaN, so that Python finds the key again
    as it is found here.) *)
Theorem mixed_sizes_wrong_length :
  forall (self : NoiseSource.t) (n1 : nat) (m : chain),
    2 <= length m ->
    NoiseSource.noise self <> [] ->
    Spec.uncached (removelast m) (NoiseSource._cache self) = true ->
    Spec.no_nan (removelast m) = true ->
    is_ok (fst (NoiseSource.cumulative_block self n1 m)) = true ->
    exists v,
      fst (NoiseSource.cumulative_block
             (snd (NoiseSource.cumulative_block self n1 m)) 1 m) = Ok v /\
      length v = n1.
Proof.
  intros self n1 m Hlen Ht Hu _. now apply stale_prefix_length.
Qed.

End TwoSizes.
(* ------------------------------------------------------------------ *)
(** * The theorems at work on the small generator *)

Import Demo.

(** The specification's example: the block of seed 42 is the same on
    every call.  The two arrays of the store never receive its halves:
    the scope over them raises [TypeError] at its entry. *)
Example block_42 :
  NoiseSource.block fresh 4 42 = Ok [F32.two; F32.three; F32.minus_one; F32.one].
Proof. reflexivity. Qed.

Example scope_42 :
  Program.exec (Program.With [(42%Z, F32.one)] Program.Pass)
    (NoiseAdder.__init__ vars fresh) sess0 =
  (Raise TypeError, adder, sess0).
Proof. reflexivity. Qed.

(** Over no variable the scope is entered; its body raises, and the
    exception goes on propagating after [__exit__]. *)
Example scope_of_nothing :
  fst (fst (Program.exec
              (Program.With [(42%Z, F32.one)] (Program.RaiseStmt IndexError))
              (NoiseAdder.__init__ [] fresh) [])) = Raise IndexError.
Proof. reflexivity. Qed.

(** With one pair of scale zero over a negative table entry, the call
    returns the negative zero and the direct sum the positive one: the
    same number, not the same datum. *)
Example single_pair_zero_sign :
  fst (NoiseSource.cumulative_block negative 1 [(42%Z, F32.zero)]) =
    Ok [F32.minus_zero] /\
  Spec.weighted_sum negative 1 [(42%Z, F32.zero)] = Ok [F32.zero].
Proof. split; reflexivity. Qed.


(** C2 at work: size 3, then size 1 on the same chain. *)
Lemma stale_prefix_wrong_sum_witness :
  ~ Spec.agree
      (fst (NoiseSource.cumulative_block
              (snd (NoiseSource.cumulative_block fresh 3 m2)) 1 m2))
      (Spec.weighted_sum
         (snd (NoiseSource.cumulative_block fresh 3 m2)) 1 m2).
Proof.
  apply (@stale_prefix_wrong_sum generator fresh 3 m2).
  - simpl. lia.
  - lia.
  - discriminate.
  - reflexivity.
  - reflexivity.
  - vm_compute. reflexivity.
Defined.

(** The other way round the length is right and the values are wrong.
    A first call at size 1 caches the one-value sum of the prefix of
    [m2]; the same chain at size 3 then returns that value broadcast
    plus the last block, (4, 6, 8), where the weighted sum of the blocks
    of size 3 is (4, 7, 5).  The cache the first call left is not
    consistent at size 3. *)
Example stale_prefix_values :
  fst (NoiseSource.cumulative_block
         (snd (NoiseSource.cumulative_block fresh 1 m2)) 3 m2) =
    Ok [S754_finite false 8388608 (-21); S754_finite false 12582912 (-21);
        S754_finite false 8388608 (-20)] /\
  Spec.weighted_sum (snd (NoiseSource.cumulative_block fresh 1 m2)) 3 m2 =
    Ok [S754_finite false 8388608 (-21); S754_finite false 14680064 (-21);
        S754_finite false 10485760 (-21)] /\
  Spec.consistent (snd (NoiseSource.cumulative_block fresh 1 m2)) 3 = false.
Proof. repeat split; vm_compute; reflexivity. Qed.

(** The weighted sum at work on a chain of two pairs and an empty
    cache. *)
Lemma cumulative_block_weighted_sum_witness :
  Spec.agree (fst (NoiseSource.cumulative_block fresh 3 m2))
             (Spec.weighted_sum fresh 3 m2).
Proof.
  apply (proj1 (@cumulative_block_weighted_sum generator fresh 3 m2)).
  reflexivity.
Defined.

(** C3 at work: the prefix of [m2] cached, against the empty cache. *)
Lemma cache_transparent_witness :
  fst (NoiseSource.cumulative_block warmed 3 m2) =
  fst (NoiseSource.cumulative_block fresh 3 m2).
Proof.
  apply (@cache_transparent generator warmed fresh 3 m2).
  - reflexivity.
  - vm_compute. reflexivity.
  - reflexivity.
Defined.

(** C4 at work: two objects built from table seed 1337 and length 16,
    with different budgets and different histories. *)
Lemma block_deterministic_witness :
  NoiseSource.block
    (Spec.after_calls (built 5) [Spec.CumulativeBlock 3 m3; Spec.Block 2 5])
    4 42 =
  NoiseSource.block
    (Spec.after_calls (built 9) [Spec.EvictCache oldest_first]) 4 42.
Proof.
  apply (@block_deterministic generator 1337 16 5 9 (built 5) (built 9)).
  - vm_compute. reflexivity.
  - vm_compute. reflexivity.
Defined.

(** C5 at work: after a call at size 3, the same chain at size 1
    returns three values. *)
Lemma mixed_sizes_wrong_length_witness :
  exists v,
    fst (NoiseSource.cumulative_block
           (snd (NoiseSource.cumulative_block fresh 3 m2)) 1 m2) = Ok v /\
    length v = 3.
Proof.
  apply (@mixed_sizes_wrong_length generator fresh 3 m2).
  - simpl. lia.
  - discriminate.
  - reflexivity.
  - reflexivity.
  - vm_compute. reflexivity.
Defined.

(** C8, refuted as stated: a requested length of 0 raises nothing and
    builds an empty table. *)
Lemma init_length_zero_returns :
  NoiseSource.__init__ 1337 0 (2 ^ 29) =
  Ok {| NoiseSource.noise := [];
        NoiseSource._cache := [];
        NoiseSource._max_cache := 2 ^ 29 |}.
Proof. reflexivity. Qed.

(** C8 at work on the default table seed. *)
Lemma init_table_witness :
  ((-1 < 0)%Z -> NoiseSource.__init__ 1337 (-1) 5 = Raise ValueError) /\
  ((0 <= 16)%Z ->
   exists ns,
     NoiseSource.__init__ 1337 16 5 = Ok ns /\
     Z.of_nat (length (NoiseSource.noise ns)) = 16%Z /\
     NoiseSource.noise ns = normal 1337 (Z.to_nat 16) /\
     NoiseSource._cache ns = []).
Proof.
  split.
  - apply (@init_table generator 1337 (-1) 5). reflexivity.
  - apply (@init_table generator 1337 16 5). reflexivity.
Defined.

(** C9 at work: three cached values against a budget of one. *)
Lemma evict_cache_python3_witness :
  NoiseSource._evict_cache Python3 warmed = Some (Raise TypeError, warmed).
Proof.
  apply (evict_cache_python3 warmed).
  vm_compute. reflexivity.
Defined.

(** The same object under Python 2: the entry goes. *)
Example evict_cache_python2_warmed :
  NoiseSource._evict_cache oldest_first warmed = Some (Ok tt, fresh).
Proof. reflexivity. Qed.

(** C10 at work: the entry cached first is still there, unchanged,
    after calls at other sizes and under other prefixes. *)
Lemma cache_only_grows_witness :
  Dict.get [(42%Z, F32.one)]
    (NoiseSource._cache
       (Spec.after_cumulative_blocks warmed [(3, m3); (1, m2); (2, m3)])) =
  Some [F32.two; F32.three; F32.minus_one].
Proof.
  apply (proj1 (proj2 (@cache_only_grows generator warmed
                         [(3, m3); (1, m2); (2, m3)] 0 []))).
  reflexivity.
Defined.

(** C6 at work on the two arrays of shape [(2,)]. *)
Lemma enter_raises_over_variables_witness :
  NoiseAdder.__enter__ adder sess0 = (Raise TypeError, adder, sess0) /\
  Program.exec (Program.With [(42%Z, F32.one)] bad_body)
    (NoiseAdder.__init__ vars fresh) sess0 =
  (Raise TypeError, adder, sess0).
Proof.
  apply (@enter_raises_over_variables generator
           (NoiseAdder.__init__ vars fresh) sess0 bad_body [(42%Z, F32.one)]).
  discriminate.
Defined.

(** C7 at work: over the two arrays the size cannot be computed; over
    no array the seed -1 is refused.  Either way the session stays. *)
Lemma enter_noise_failure_witness :
  (fst (fst (NoiseAdder.__enter__ adder sess0)) = Raise TypeError /\
   snd (NoiseAdder.__enter__ adder sess0) = sess0) /\
  (fst (fst (NoiseAdder.__enter__ adder_of_nothing [])) = Raise ValueError /\
   snd (NoiseAdder.__enter__ adder_of_nothing []) = []).
Proof.
  split.
  - apply (@enter_noise_failure generator adder sess0 TypeError). reflexivity.
  - apply (@enter_noise_failure generator adder_of_nothing [] ValueError).
    reflexivity.
Defined.

(* ------------------------------------------------------------------ *)
(** * The further properties at work *)

Lemma block_samples_table_witness :
  exists v,
    NoiseSource.block fresh 4 42 = Ok v /\
    length v = 4 /\
    forall x, In x v -> In x (NoiseSource.noise fresh).
Proof.
  apply (@block_samples_table generator fresh 4 42).
  - reflexivity.
  - simpl. lia.
Defined.

(** A negative seed on a table of four; an empty table asked for one
    value; and an empty table asked for none, which returns. *)
Lemma block_raises_iff_witness :
  NoiseSource.block fresh 4 (-1) = Raise ValueError /\
  NoiseSource.block
    {| NoiseSource.noise := []; NoiseSource._cache := [];
       NoiseSource._max_cache := 1 |} 1 42 = Raise ValueError /\
  NoiseSource.block
    {| NoiseSource.noise := []; NoiseSource._cache := [];
       NoiseSource._max_cache := 1 |} 0 42 <> Raise ValueError.
Proof.
  split; [|split].
  - apply (proj2 (@block_raises_iff generator fresh 4 (-1))).
    left. reflexivity.
  - apply (proj2 (@block_raises_iff generator _ 1 42)).
    right. split; [reflexivity | discriminate].
  - intros H.
    apply (proj1 (@block_raises_iff generator _ 0 42)) in H.
    destruct H as [H|[_ H]]; [discriminate H | now apply H].
Defined.

Example block_empty_table_empty_block :
  NoiseSource.block
    {| NoiseSource.noise := []; NoiseSource._cache := [];
       NoiseSource._max_cache := 1 |} 0 42 = Ok [].
Proof. reflexivity. Qed.

Lemma cumulative_block_outcome_witness :
  match fst (NoiseSource.cumulative_block warmed 3 m3) with
  | Ok v => length v = 3 /\ Program.drawable warmed 3 m3 = true
  | Raise e => e = ValueError /\ Program.drawable warmed 3 m3 = false
  end.
Proof.
  apply (@cumulative_block_outcome generator warmed 3 m3).
  - vm_compute. reflexivity.
  - discriminate.
Defined.

Lemma cumulative_block_caches_prefix_witness :
  (exists cached,
      Dict.get [(42%Z, F32.one)]
        (NoiseSource._cache
           (snd (NoiseSource.cumulative_block fresh 3
                   ([(42%Z, F32.one)] ++ [(7%Z, F32.two)])))) = Some cached) /\
  forall size' last',
    snd (NoiseSource.cumulative_block
           (snd (NoiseSource.cumulative_block fresh 3
                   ([(42%Z, F32.one)] ++ [(7%Z, F32.two)])))
           size' ([(42%Z, F32.one)] ++ [last'])) =
    snd (NoiseSource.cumulative_block fresh 3
           ([(42%Z, F32.one)] ++ [(7%Z, F32.two)])).
Proof.
  eapply (@cumulative_block_caches_prefix generator fresh 3
            [(42%Z, F32.one)] (7%Z, F32.two)).
  - discriminate.
  - vm_compute. reflexivity.
Defined.

Lemma cache_keys_distinct_witness :
  NoDup (Dict.keys (NoiseSource._cache
           (Spec.after_calls fresh
              [Spec.CumulativeBlock 3 m3; Spec.CumulativeBlock 1 m2;
               Spec.EvictCache oldest_first; Spec.CumulativeBlock 2 m3]))) /\
  Forall (fun k : chain => k <> [])
    (Dict.keys (NoiseSource._cache
       (Spec.after_calls fresh
          [Spec.CumulativeBlock 3 m3; Spec.CumulativeBlock 1 m2;
           Spec.EvictCache oldest_first; Spec.CumulativeBlock 2 m3]))).
Proof.
  apply (@cache_keys_distinct generator fresh). reflexivity.
Defined.

Lemma cache_holds_prefix_sums_witness :
  length [F32.two; F32.three; F32.minus_one] = 3 /\
  Spec.weighted_sum fresh 3 [(42%Z, F32.one)] =
    Ok [F32.two; F32.three; F32.minus_one].
Proof.
  apply (@cache_holds_prefix_sums generator fresh 3
           [Spec.Block 2 7; Spec.CumulativeBlock 3 m2] [(42%Z, F32.one)]).
  - reflexivity.
  - reflexivity.
  - reflexivity.
Defined.

(** The count of cached values: a miss that returns, and a hit. *)
Lemma cache_size_after_call_witness :
  NoiseSource._cache_size (snd (NoiseSource.cumulative_block fresh 3 m2)) =
    (NoiseSource._cache_size fresh + 3)%Z /\
  NoiseSource._cache_size (snd (NoiseSource.cumulative_block warmed 3 m2)) =
    NoiseSource._cache_size warmed.
Proof.
  split.
  - apply (proj1 (@cache_size_after_call generator fresh 3 m2)).
    split; [simpl; lia | split; vm_compute; reflexivity].
  - apply (proj2 (@cache_size_after_call generator warmed 3 m2)).
    right. left. split; [reflexivity | vm_compute; discriminate].
Defined.

(** Three cached values against a budget of one, under a hash table
    that lists the newest key first. *)
Lemma evict_cache_python2_exact_witness :
  exists self',
    NoiseSource._evict_cache (Python2 (fun keys => length keys - 1)) warmed =
      Some (Ok tt, self') /\
    NoiseSource.noise self' = NoiseSource.noise warmed /\
    NoiseSource._max_cache self' = NoiseSource._max_cache warmed /\
    (forall x, In x (NoiseSource._cache self') ->
               In x (NoiseSource._cache warmed)) /\
    (NoiseSource._cache_size self' <= NoiseSource._max_cache warmed)%Z /\
    (NoiseSource._cache self' = NoiseSource._cache warmed \/
     exists entry,
       In entry (NoiseSource._cache warmed) /\
       ~ In entry (NoiseSource._cache self') /\
       (NoiseSource._cache_size self' + Z.of_nat (length (snd entry)) >
        NoiseSource._max_cache warmed)%Z).
Proof.
  apply (@evict_cache_python2_exact (fun keys => length keys - 1) warmed).
  - vm_compute. discriminate.
  - vm_compute. constructor; [intros [] | constructor].
Defined.

Lemma evict_cache_python2_negative_budget_witness :
  NoiseSource._evict_cache oldest_first
    {| NoiseSource.noise := table;
       NoiseSource._cache := NoiseSource._cache warmed;
       NoiseSource._max_cache := -1 |} =
  Some (Raise IndexError,
        {| NoiseSource.noise := table; NoiseSource._cache := [];
           NoiseSource._max_cache := -1 |}).
Proof.
  apply (@evict_cache_python2_negative_budget (fun _ => 0)
           {| NoiseSource.noise := table;
              NoiseSource._cache := NoiseSource._cache warmed;
              NoiseSource._max_cache := -1 |}).
  simpl. lia.
Defined.

Lemma cumulative_block_extend_witness :
  fst (NoiseSource.cumulative_block fresh 3 (m2 ++ [(9%Z, F32.one)])) =
  (v <- fst (NoiseSource.cumulative_block fresh 3 m2) ;;
   b <- NoiseSource.block fresh 3 9 ;;
   Np.add v (Np.scale b F32.one)).
Proof.
  apply (@cumulative_block_extend generator fresh 3 m2 9 F32.one).
  - reflexivity.
  - simpl. lia.
Defined.

(** Below two pairs the leading zero of the sum shows: appending to a
    chain of one pair is not adding to what that chain gave. *)
Example cumulative_block_extend_one_pair :
  fst (NoiseSource.cumulative_block negative 1
         ([(42%Z, F32.zero)] ++ [(7%Z, F32.zero)])) = Ok [F32.zero] /\
  (v <- fst (NoiseSource.cumulative_block negative 1 [(42%Z, F32.zero)]) ;;
   b <- NoiseSource.block negative 1 7 ;;
   Np.add v (Np.scale b F32.zero)) = Ok [F32.minus_zero].
Proof. split; reflexivity. Qed.

(** An adder of no variable with the chain (42, 1.0) returns; the
    adder over the two arrays does not. *)
Lemma enter_returns_iff_witness :
  is_ok (fst (fst (NoiseAdder.__enter__
                     (NoiseAdder.seed (NoiseAdder.__init__ [] fresh)
                                      [(42%Z, F32.one)]) []))) = true /\
  is_ok (fst (fst (NoiseAdder.__enter__ adder sess0))) <> true.
Proof.
  split.
  - apply (proj2 (proj1 (@enter_returns_iff generator
             (NoiseAdder.seed (NoiseAdder.__init__ [] fresh)
                              [(42%Z, F32.one)]) []
             (conj eq_refl eq_refl)))).
    split; reflexivity.
  - intros H.
    apply (proj1 (proj1 (@enter_returns_iff generator adder sess0
                           (conj eq_refl eq_refl)))) in H.
    destruct H as [H _]. discriminate H.
Defined.

Lemma enter_without_seeds_witness :
  NoiseAdder.__enter__ (NoiseAdder.__init__ [] fresh) [] =
  (Ok tt, NoiseAdder.with_old_vals (NoiseAdder.__init__ [] fresh) [], []).
Proof.
  apply (@enter_without_seeds generator (NoiseAdder.__init__ [] fresh) []).
  - split; reflexivity.
  - reflexivity.
  - reflexivity.
Defined.

Lemma noise_seeds_accepted_witness :
  exists seeds,
    Program.noise_seeds (0%Z : @global_state global) 3 = Ok seeds /\
    Z.of_nat (length seeds) = 3%Z /\
    Forall (fun seed => Rs.seed_ok seed = true) seeds /\
    forall (self : NoiseSource.t) (size : nat),
      0 < length (NoiseSource.noise self) ->
      Forall (fun seed =>
                exists v, NoiseSource.block self size seed = Ok v /\
                          length v = size) seeds.
Proof.
  apply (proj2 (@noise_seeds_accepted generator global 0%Z 3%Z)).
  lia.
Defined.

Example noise_seeds_three :
  Program.noise_seeds (0%Z : @global_state global) 3 =
  Ok [1%Z; 1442695040888963408 mod 2 ^ 32; 2885390081777926815 mod 2 ^ 32]%Z.
Proof. reflexivity. Qed.
